(** * Word display subsystem (words_display.c): embedding and properties

    The module keeps a process-wide store of vocabulary entries parsed from an
    embedded TSV resource, a cursor into it that a timer advances, and a
    formatter that renders the current entry into a caller-supplied buffer of
    [outChars] wide characters.

    The C globals become the fields of [Store] (module state) and [Config]
    (settings the module only reads); every function takes the store and
    returns the store it leaves behind.  What the operating system supplies
    (the resource bytes, [GetTickCount]) is the [Host] record. *)

From Stdlib Require Import ZArith Lia Bool String Ascii.
From stdpp Require Import base list.

Local Open Scope Z_scope.

(** ** Machine integers *)

(** [DWORD] is an unsigned 32-bit integer, [int] a signed one.  Both are
    modelled as [Z]; every operation that can leave the range is followed by
    the reduction the target performs.  (Signed overflow is undefined in C; the
    model gives it the two's-complement result the target's compilers
    produce.) *)
Definition DWORD_MAX : Z := 2 ^ 32 - 1.
Definition INT_MAX : Z := 2 ^ 31 - 1.
Definition INT_MIN : Z := - 2 ^ 31.

Definition to_dword (z : Z) : Z := z mod 2 ^ 32.
Definition to_int (z : Z) : Z := (z + 2 ^ 31) mod 2 ^ 32 - 2 ^ 31.

Definition is_dword (z : Z) : Prop := 0 <= z <= DWORD_MAX.
Definition is_int (z : Z) : Prop := INT_MIN <= z <= INT_MAX.

(** ** Wide strings *)

(** A [wchar_t] is its code unit.  A [wcs] is a run of consecutive cells; read
    as a C string it ends before its first zero cell ([cstr]). *)
Abbreviation wchar := Z (only parsing).
Abbreviation wcs := (list Z) (only parsing).

Definition WSPACE : wchar := 32.
Definition WTAB : wchar := 9.
Definition WCR : wchar := 13.
Definition WNL : wchar := 10.
Definition WELLIPSIS : wchar := 8230.
Definition WMIDDOT : wchar := 183.
Definition WLBRACKET : wchar := 91.
Definition WRBRACKET : wchar := 93.

(** An ASCII literal as a wide string, for examples. *)
Definition L (s : string) : wcs :=
  map (fun a => Z.of_N (N_of_ascii a)) (list_ascii_of_string s).

Fixpoint cstr (s : wcs) : wcs :=
  match s with
  | [] => []
  | c :: s' => if c =? 0 then [] else c :: cstr s'
  end.

(** [wcslen] of a string constant or of a field of an entry. *)
Definition wcslen (s : wcs) : nat := length (cstr s).

(** [s[0] != 0] *)
Definition nonempty (s : wcs) : bool :=
  match s with
  | [] => false
  | c :: _ => negb (c =? 0)
  end.

(** ** TSV parsing *)

(** [DupWide]: a fresh copy of the string.  Allocation is taken to succeed, so
    the copy is never [NULL]; [None] stands for the [NULL] pointer. *)
Definition DupWide (s : wcs) : option wcs := Some (cstr s).

Definition is_trailing_ws (c : wchar) : bool :=
  (c =? WSPACE) || (c =? WTAB) || (c =? WCR) || (c =? WNL).

Definition is_leading_ws (c : wchar) : bool :=
  (c =? WSPACE) || (c =? WTAB).

(** The first loop of [TrimWideInPlace]:
    [while (len > 0 && ws(s[len-1])) { s[len-1] = 0; len--; }];
    the result is the final [len]. *)
Fixpoint trim_trailing_len (s : wcs) (len : nat) : nat :=
  match len with
  | O => O
  | S n => if is_trailing_ws (nth n s 0) then trim_trailing_len s n else len
  end.

(** The second loop advances [p] over leading spaces and tabs (and over
    nothing else); the result is the string at the final [p], which [memmove]
    then brings to the front. *)
Fixpoint skip_leading (p : wcs) : wcs :=
  match p with
  | [] => []
  | c :: p' => if is_leading_ws c then skip_leading p' else p
  end.

(** [TrimWideInPlace] on the contents of the string ([s] is never [NULL] at
    its one call site). *)
Definition TrimWideInPlace (s : wcs) : wcs :=
  let s0 := cstr s in
  let len := trim_trailing_len s0 (length s0) in
  skip_leading (take len s0).

Record WordEntry := mkWordEntry {
  name : option wcs;
  uk : option wcs;
  us : option wcs;
  trans : option wcs
}.

(** [wcstok_s] with the newline as only delimiter, called until it returns
    [NULL]: the
    successive tokens are the maximal non-empty runs of characters other than
    the newline.  [cur] is the token being read. *)
Fixpoint wcstok_lines (cur : wcs) (s : wcs) : list wcs :=
  match s with
  | [] => match cur with [] => [] | _ => [cur] end
  | c :: s' =>
      if c =? WNL
      then match cur with
           | [] => wcstok_lines [] s'
           | _ => cur :: wcstok_lines [] s'
           end
      else wcstok_lines (cur ++ [c]) s'
  end.

(** The field loop of a line.  The first field begins at the line's start;
    while fewer than 4 fields have begun, a tab ends the current field (it is
    overwritten with the terminator) and the next field begins after it.
    [fi] is the number of fields begun so far; once it is 4 the scan stops and
    the rest of the line, tabs included, stays in the last field. *)
Fixpoint split_fields (fi : nat) (p : wcs) : list wcs :=
  match p with
  | [] => [[]]
  | c :: p' =>
      if (c =? WTAB) && (fi <? 4)%nat
      then [] :: split_fields (S fi) p'
      else match split_fields fi p' with
           | [] => [[c]]
           | f :: fs => (c :: f) :: fs
           end
  end.

(** One pass of the body of [while (line)]: the entry the line yields, or
    [None] when the line is skipped. *)
Definition ParseLine (line : wcs) : option WordEntry :=
  let fields := TrimWideInPlace <$> split_fields 1 line in
  let fi := length fields in
  let field k := default [] (fields !! k) in
  if (1 <=? fi)%nat && nonempty (field 0%nat)
  then Some {|
    name := DupWide (field 0%nat);
    uk := if (1 <? fi)%nat && nonempty (field 1%nat)
          then DupWide (field 1%nat) else DupWide [];
    us := if (2 <? fi)%nat && nonempty (field 2%nat)
          then DupWide (field 2%nat) else DupWide [];
    trans := if (3 <? fi)%nat && nonempty (field 3%nat)
             then DupWide (field 3%nat) else DupWide []
  |}
  else None.

(** The counting loop: [lines++] at every newline character of the buffer. *)
Fixpoint count_lines (lines : Z) (p : wcs) : Z :=
  match p with
  | [] => lines
  | c :: p' => count_lines (if c =? WNL then to_int (lines + 1) else lines) p'
  end.

(** The [while (line)] loop over the tokens: [arr] holds the entries stored
    so far (the cells [arr[0..count)]), [count] is the C counter. *)
Fixpoint parse_lines (toks : list wcs) (arr : list WordEntry) (count : Z)
  : list WordEntry * Z :=
  match toks with
  | [] => (arr, count)
  | line :: rest =>
      match ParseLine line with
      | Some e => parse_lines rest (arr ++ [e]) (to_int (count + 1))
      | None => parse_lines rest arr count
      end
  end.

(** The places where [ParseTsvToWords] returns [FALSE]. *)
Inductive ParseError :=
| NullInput          (* [!utf8] *)
| ConversionFailed   (* [!wide] *)
| InsufficientData   (* [lines < 10] *)
| NoUsableEntries.   (* [count <= 0] *)

(** [ParseTsvToWords] from the converted buffer on: the array and the count it
    would publish, or the exit it takes.  ([calloc] is taken to succeed.) *)
Definition ParseWide (wide : wcs) : ParseError + (list WordEntry * Z) :=
  let w := cstr wide in
  let lines := count_lines 0 w in
  if lines <? 10 then inl InsufficientData
  else
    let '(arr, count) := parse_lines (wcstok_lines [] w) [] 0 in
    if count <=? 0 then inl NoUsableEntries
    else inr (arr, count).

(** ** Module state, configuration and host *)

(** The persisted configuration globals. *)
Record Config := mkConfig {
  WORD_DISPLAY_ENABLED : bool;
  WORD_SWITCH_INTERVAL_SEC : Z;
  WORD_SHOW_PHONETIC : bool;
  WORD_PHONETIC_MODE : Z;      (* 0=UK, 1=US, 2=BOTH *)
  WORD_SHOW_CHINESE : bool;
  WORD_CHINESE_MAX_LEN : Z
}.

(** The file-static globals.  [g_words] is [None] for [NULL], otherwise the
    cells of the array that hold entries. *)
Record Store := mkStore {
  g_words : option (list WordEntry);
  g_wordCount : Z;
  g_currentIndex : Z;
  g_nextSwitchTick : Z;
  g_initialized : bool
}.

(** The globals as the C initialisers leave them. *)
Definition initial_store : Store :=
  {| g_words := None; g_wordCount := 0; g_currentIndex := -1;
     g_nextSwitchTick := 0; g_initialized := false |}.

Definition set_words (ws : option (list WordEntry)) (n i : Z) (st : Store) : Store :=
  {| g_words := ws; g_wordCount := n; g_currentIndex := i;
     g_nextSwitchTick := g_nextSwitchTick st; g_initialized := g_initialized st |}.

Definition set_currentIndex (i : Z) (st : Store) : Store :=
  {| g_words := g_words st; g_wordCount := g_wordCount st; g_currentIndex := i;
     g_nextSwitchTick := g_nextSwitchTick st; g_initialized := g_initialized st |}.

Definition set_nextSwitchTick (t : Z) (st : Store) : Store :=
  {| g_words := g_words st; g_wordCount := g_wordCount st;
     g_currentIndex := g_currentIndex st;
     g_nextSwitchTick := t; g_initialized := g_initialized st |}.

Definition set_initialized (b : bool) (st : Store) : Store :=
  {| g_words := g_words st; g_wordCount := g_wordCount st;
     g_currentIndex := g_currentIndex st;
     g_nextSwitchTick := g_nextSwitchTick st; g_initialized := b |}.

(** What the operating system answers during one call of [WordsDisplay_Init]:
    the bytes of the embedded resource ([None] when one of [FindResourceW],
    [LoadResource], [LockResource] fails) and the reading of [GetTickCount]. *)
Record Host := mkHost {
  host_resource : option (list Byte.byte);
  host_tick : Z
}.

Definition GetTickCount (h : Host) : Z := to_dword (host_tick h).

(** [!g_words || g_wordCount <= 0] *)
Definition no_words (st : Store) : bool :=
  match g_words st with
  | None => true
  | Some _ => g_wordCount st <=? 0
  end.

(** [LoadResourceToUtf8Buffer]: the bytes copied into the fresh buffer; the
    terminator written after them is left implicit. *)
Definition LoadResourceToUtf8Buffer (h : Host) : option (list Byte.byte) :=
  match host_resource h with
  | None => None
  | Some data => if (length data =? 0)%nat then None else Some data
  end.

(** A [char*] buffer read as a C string. *)
Fixpoint utf8_cstr (b : list Byte.byte) : list Byte.byte :=
  match b with
  | [] => []
  | c :: b' => if Byte.eqb c Byte.x00 then [] else c :: utf8_cstr b'
  end.

Definition FreeWords (st : Store) : Store :=
  match g_words st with
  | None => st
  | Some _ => set_words None 0 (-1) st
  end.

Inductive ParseStatus :=
| Parsed                       (* [return TRUE] *)
| Failed (e : ParseError).     (* [return FALSE] *)

Section WithConversion.

(** [Utf8ToWideAlloc] (utils/string_convert.h) is not part of this file: the
    UTF-8 to UTF-16 conversion is a parameter, [None] being its [NULL]. *)
Variable Utf8ToWideAlloc : list Byte.byte -> option wcs.

Definition ParseTsvToWords (utf8 : option (list Byte.byte)) (st : Store)
  : ParseStatus * Store :=
  match utf8 with
  | None => (Failed NullInput, st)
  | Some buf =>
      match Utf8ToWideAlloc (utf8_cstr buf) with
      | None => (Failed ConversionFailed, st)
      | Some wide =>
          match ParseWide wide with
          | inl e => (Failed e, st)
          | inr (arr, count) => (Parsed, set_words (Some arr) count 0 st)
          end
      end
  end.

Definition WordsDisplay_Init (h : Host) (cfg : Config) (st : Store)
  : bool * Store :=
  if g_initialized st then (true, st)
  else
    let st := set_initialized true st in
    match LoadResourceToUtf8Buffer h with
    | None => (false, st)
    | Some buf =>
        match ParseTsvToWords (Some buf) st with
        | (Failed _, st) => (false, st)
        | (Parsed, st) =>
            let tick := GetTickCount h in
            let st :=
              if 0 <? g_wordCount st
              then set_currentIndex
                     (to_int (tick mod to_dword (g_wordCount st))) st
              else st in
            let sec := WORD_SWITCH_INTERVAL_SEC cfg in
            let st :=
              set_nextSwitchTick
                (to_dword (tick + to_dword (if 0 <? sec
                                            then to_int (sec * 1000)
                                            else 0))) st in
            (true, st)
        end
    end.

Definition WordsDisplay_Shutdown (st : Store) : Store :=
  set_initialized false (FreeWords st).

Definition SetCurrentIndex (idx : Z) (st : Store) : bool * Store :=
  if no_words st then (false, st)
  else
    let idx := if idx <? 0 then 0 else idx in
    let idx := if g_wordCount st <=? idx then 0 else idx in
    if negb (g_currentIndex st =? idx)
    then (true, set_currentIndex idx st)
    else (false, st).

(** [if (!g_initialized) WordsDisplay_Init();] *)
Definition lazy_init (h : Host) (cfg : Config) (st : Store) : Store :=
  if g_initialized st then st else snd (WordsDisplay_Init h cfg st).

(** [now] is the reading of [GetTickCount] taken inside [WordsDisplay_Next];
    [h] serves the lazy initialisation. *)
Definition WordsDisplay_Next (h : Host) (now : Z) (cfg : Config) (st : Store)
  : bool * Store :=
  let st := lazy_init h cfg st in
  if no_words st then (false, st)
  else
    let '(changed, st) := SetCurrentIndex (to_int (g_currentIndex st + 1)) st in
    let now := to_dword now in
    let sec := WORD_SWITCH_INTERVAL_SEC cfg in
    let st :=
      if 0 <? sec
      then set_nextSwitchTick (to_dword (now + to_dword (to_dword sec * 1000))) st
      else st in
    (changed, st).

Definition WordsDisplay_Tick (h : Host) (nowTick : Z) (cfg : Config) (st : Store)
  : bool * Store :=
  if negb (WORD_DISPLAY_ENABLED cfg) then (false, st)
  else
    let st := lazy_init h cfg st in
    if no_words st then (false, st)
    else if WORD_SWITCH_INTERVAL_SEC cfg <=? 0 then (false, st)
    else if g_nextSwitchTick st <=? nowTick
    then
      let '(changed, st) := SetCurrentIndex (to_int (g_currentIndex st + 1)) st in
      let sec := WORD_SWITCH_INTERVAL_SEC cfg in
      (changed,
       set_nextSwitchTick
         (to_dword (nowTick + to_dword (to_dword sec * 1000))) st)
    else (false, st).

(** *** Formatting *)

(** The output buffer is the run of cells that starts at [out]; a [None]
    result of a buffer primitive is an access outside that run. *)

(** [out[i] = c] *)
Definition store_cell (out : wcs) (i : nat) (c : wchar) : option wcs :=
  if (i <? length out)%nat then Some (<[i := c]> out) else None.

(** [wcslen(out)] on the buffer: the index of its first zero cell. *)
Fixpoint wcslen_buf (out : wcs) : option nat :=
  match out with
  | [] => None
  | c :: out' => if c =? 0 then Some O else S <$> wcslen_buf out'
  end.

(** Consecutive stores [out[i] = c0; out[i+1] = c1; ...]. *)
Fixpoint store_cells (out : wcs) (i : nat) (cs : wcs) : option wcs :=
  match cs with
  | [] => Some out
  | c :: cs' => out' ← store_cell out i c; store_cells out' (S i) cs'
  end.

(** [wcsncat(dest, src, n)]: at most [n] characters of [src] are stored from
    the terminator of [dest] on, then a terminator. *)
Definition wcsncat (dest src : wcs) (n : nat) : option wcs :=
  cur ← wcslen_buf dest;
  store_cells dest cur (take n (cstr src) ++ [0]).

(** [wcsncpy(dest, src, n)]: exactly [n] cells are stored, the characters of
    [src] and then zeros. *)
Definition wcsncpy (dest src : wcs) (n : nat) : option wcs :=
  store_cells dest 0 (take n (cstr src ++ replicate n 0)).

Definition AppendWithLimit (out : option wcs) (outChars : nat) (s : option wcs)
  : option (option wcs) :=
  match out, s with
  | Some buf, Some str =>
      if (outChars =? 0)%nat then Some out
      else
        cur ← wcslen_buf buf;
        if (outChars - 1 <=? cur)%nat then Some out
        else Some <$> wcsncat buf str (outChars - 1 - cur)
  | _, _ => Some out
  end.

Definition AppendCnTruncated (cfg : Config) (out : option wcs) (outChars : nat)
    (cn : option wcs) : option (option wcs) :=
  match cn with
  | None => Some out
  | Some str =>
      if negb (nonempty str) then Some out
      else if WORD_CHINESE_MAX_LEN cfg <=? 0
      then AppendWithLimit out outChars cn
      else
        let max := WORD_CHINESE_MAX_LEN cfg in
        let len := to_int (Z.of_nat (wcslen str)) in
        if len <=? max then AppendWithLimit out outChars cn
        else
          let tmp := replicate 256 0 in
          let copy := max in
          let copy := if 240 <? copy then 240 else copy in
          tmp ← wcsncpy tmp str (Z.to_nat copy);
          tmp ← store_cell tmp (Z.to_nat copy) 0;
          out ← AppendWithLimit out outChars (Some tmp);
          AppendWithLimit out outChars (Some [WELLIPSIS])
  end.

(** [p && p[0]] *)
Definition present (p : option wcs) : bool :=
  match p with
  | None => false
  | Some s => nonempty s
  end.

(** The three appends the source repeats for each transcription shown:
    [L" ["], the transcription, [L"]"]. *)
Definition append_bracketed (out : option wcs) (outChars : nat) (p : option wcs)
  : option (option wcs) :=
  out ← AppendWithLimit out outChars (Some [WSPACE; WLBRACKET]);
  out ← AppendWithLimit out outChars p;
  AppendWithLimit out outChars (Some [WRBRACKET]).

(** [WordsDisplay_FormatSuffix] from [WordEntry* e = &g_words[g_currentIndex]]
    on. *)
Definition format_entry (cfg : Config) (out : option wcs) (outChars : nat)
    (e : WordEntry) : option (option wcs) :=
  out ← AppendWithLimit out outChars (Some [WSPACE; WSPACE]);
  out ← AppendWithLimit out outChars
          (Some (match name e with Some s => s | None => [] end));
  out ←
    (if WORD_SHOW_PHONETIC cfg
     then
       if WORD_PHONETIC_MODE cfg =? 2
       then
         out ← (if present (uk e) then append_bracketed out outChars (uk e)
                else Some out);
         if present (us e) then append_bracketed out outChars (us e)
         else Some out
       else if WORD_PHONETIC_MODE cfg =? 1
       then
         if present (us e) then append_bracketed out outChars (us e)
         else Some out
       else
         if present (uk e) then append_bracketed out outChars (uk e)
         else Some out
     else Some out);
  if WORD_SHOW_CHINESE cfg
  then
    if present (trans e)
    then
      out ← AppendWithLimit out outChars (Some [WSPACE; WMIDDOT; WSPACE]);
      AppendCnTruncated cfg out outChars (trans e)
    else Some out
  else Some out.

(** The result is the store after the call and the buffer after the call;
    the buffer is [None] when an access left the buffer or the array of
    entries. *)
Definition WordsDisplay_FormatSuffix (h : Host) (cfg : Config)
    (out : option wcs) (outChars : nat) (st : Store)
  : Store * option (option wcs) :=
  match out with
  | None => (st, Some out)
  | Some buf =>
      if (outChars =? 0)%nat then (st, Some out)
      else
        match store_cell buf 0 0 with
        | None => (st, None)
        | Some buf =>
            let out := Some buf in
            if negb (WORD_DISPLAY_ENABLED cfg) then (st, Some out)
            else
              let st := lazy_init h cfg st in
              if no_words st || (g_currentIndex st <? 0)
                 || (g_wordCount st <=? g_currentIndex st)
              then (st, Some out)
              else
                (st,
                 ws ← g_words st;
                 e ← ws !! Z.to_nat (g_currentIndex st);
                 format_entry cfg out outChars e)
        end
  end.

End WithConversion.

(** * Vocabulary of the statements *)

(** No terminator inside: the cells are the characters of a string. *)
Definition zero_free (s : wcs) : Prop := Forall (λ c, c ≠ 0) s.

(** A field as the parser leaves it: it begins with neither a space nor a tab
    and ends with none of space, tab, carriage return, newline. *)
Definition trimmed (f : wcs) : Prop :=
  (∀ c, head f = Some c → is_leading_ws c = false) ∧
  (∀ c, last f = Some c → is_trailing_ws c = false).

(** A field free of all four whitespace characters at both ends. *)
Definition fully_trimmed (f : wcs) : Prop :=
  (∀ c, head f = Some c → is_trailing_ws c = false) ∧
  (∀ c, last f = Some c → is_trailing_ws c = false).

(** The [k]-th tab-separated field of a line, before trimming; empty when the
    line has fewer fields. *)
Definition raw_field (line : wcs) (k : nat) : wcs :=
  default [] (split_fields 1 line !! k).

(** The number of newline characters of a buffer: the count the guard of
    [ParseTsvToWords] makes.  It is the number of lines of a buffer in which
    every line is ended by its newline; a last row that lacks its newline adds
    nothing to it. *)
Definition line_count (wide : wcs) : Z :=
  Z.of_nat (length (filter (λ c, c = WNL) (cstr wide))).

(** The lines of a buffer in the specification's words, the input split on
    the newline: every newline ends a line (an empty one included), and the
    characters after the last newline, when there are any, are a last line.
    [cur] is the line being read. *)
Fixpoint split_on_newline (cur : list Z) (s : list Z) : list (list Z) :=
  match s with
  | [] => match cur with [] => [] | _ => [cur] end
  | c :: s' =>
      if c =? WNL then cur :: split_on_newline [] s'
      else split_on_newline (cur ++ [c]) s'
  end.

Definition lines_of (wide : list Z) : list (list Z) :=
  split_on_newline [] (cstr wide).

(** A line of text: characters other than the terminator and the newline. *)
Definition is_line (l : wcs) : Prop := Forall (λ c, c ≠ 0 ∧ c ≠ WNL) l.

(** The buffer whose lines are [ls], each ended by a newline. *)
Definition unlines (ls : list wcs) : wcs := concat ((λ l, l ++ [WNL]) <$> ls).

(** The globals hold values of their C types, and the array has at least
    [g_wordCount] cells. *)
Definition store_wf (st : Store) : Prop :=
  is_int (g_wordCount st) ∧ is_int (g_currentIndex st) ∧
  is_dword (g_nextSwitchTick st) ∧
  match g_words st with
  | Some ws => g_wordCount st <= Z.of_nat (length ws)
  | None => True
  end.

(** Whenever the store holds an entry, the current index is one of
    [0 .. g_wordCount - 1]. *)
Definition index_in_range (st : Store) : Prop :=
  no_words st = false → 0 <= g_currentIndex st < g_wordCount st.

(** A conversion for buffers of ASCII text, for the examples. *)
Definition ascii_wide (b : list Byte.byte) : option (list Z) :=
  Some ((λ x, Z.of_N (Byte.to_N x)) <$> b).

(** The bytes of an ASCII literal. *)
Definition B (s : string) : list Byte.byte := list_byte_of_string s.

(** [n] copies of a row, each ended by a newline. *)
Definition rows_of (n : nat) (row : string) : list Byte.byte :=
  concat (replicate n (B row ++ [Byte.x0a])).

(** The store a successful load leaves: the entries, a starting index drawn
    from the tick count, the first deadline. *)
Definition loaded_store (arr : list WordEntry) (count tick sec : Z) (st : Store)
  : Store :=
  {| g_words := Some arr; g_wordCount := count;
     g_currentIndex := tick mod count;
     g_nextSwitchTick :=
       to_dword (tick + to_dword (if 0 <? sec then to_int (sec * 1000) else 0));
     g_initialized := true |}.

(** The index [SetCurrentIndex] settles on. *)
Definition clamp_index (idx count : Z) : Z :=
  if (0 <=? idx) && (idx <? count) then idx else 0.

(** Stores, hosts and settings of the examples. *)
Definition entry_abandon : WordEntry :=
  {| name := Some (L "abandon");
     uk := Some [601; 712; 98; 230; 110; 100; 601; 110];
     us := Some [];
     trans := Some [25918; 24323; 65307; 25243; 24323] |}.

Definition entry_cat : WordEntry :=
  {| name := Some (L "cat"); uk := Some (L "kat"); us := Some (L "kaet");
     trans := Some [] |}.

Definition two_words (idx next : Z) : Store :=
  {| g_words := Some [entry_abandon; entry_cat]; g_wordCount := 2;
     g_currentIndex := idx; g_nextSwitchTick := next; g_initialized := true |}.

(** The configuration as the C initialisers set it, and with the display
    switched on. *)
Definition default_config : Config :=
  {| WORD_DISPLAY_ENABLED := false; WORD_SWITCH_INTERVAL_SEC := 20;
     WORD_SHOW_PHONETIC := true; WORD_PHONETIC_MODE := 0;
     WORD_SHOW_CHINESE := true; WORD_CHINESE_MAX_LEN := 10 |}.

Definition enabled_config : Config :=
  {| WORD_DISPLAY_ENABLED := true; WORD_SWITCH_INTERVAL_SEC := 20;
     WORD_SHOW_PHONETIC := true; WORD_PHONETIC_MODE := 0;
     WORD_SHOW_CHINESE := true; WORD_CHINESE_MAX_LEN := 10 |}.

(** A host without the resource, and one with a resource of 12 rows. *)
Definition no_host : Host := {| host_resource := None; host_tick := 0 |}.

Definition rows_host : Host :=
  {| host_resource := Some (rows_of 12 "cat"); host_tick := 7 |}.

(** A host whose resource is too short for the parser: 9 rows. *)
Definition short_host : Host :=
  {| host_resource := Some (rows_of 9 "cat"); host_tick := 7 |}.


(** The buffer holds the string [a]: its cells are the characters of [a],
    then the terminator. *)
Definition holds_string (buf a : wcs) : Prop :=
  zero_free a ∧ ∃ rest, buf = a ++ 0 :: rest.

(** [buf'] is [buf] with cells below index [n] rewritten and no other. *)
Definition same_beyond (n : nat) (buf buf' : wcs) : Prop :=
  length buf' = length buf ∧ ∀ i, (n ≤ i)%nat → buf' !! i = buf !! i.

(** The outcome of a formatting step on a buffer of [n] characters that began
    as [buf0]: no access left the buffer, the cells from [n] on are those of
    [buf0], and the buffer holds a string of fewer than [n] characters. *)
Definition fits (n : nat) (buf0 buf : wcs) : Prop :=
  same_beyond n buf0 buf ∧ ∃ a, holds_string buf a ∧ (length a < n)%nat.

Definition writes_within (n : nat) (buf0 : wcs) (r : option (option wcs)) : Prop :=
  ∃ buf, r = Some (Some buf) ∧ fits n buf0 buf.

(** The characters of an optional string; none for [NULL]. *)
Definition chars_of (s : option wcs) : wcs :=
  match s with
  | Some str => cstr str
  | None => []
  end.

(** The text [AppendCnTruncated] appends for a translation, buffer capacity
    apart. *)
Definition cn_appended (cfg : Config) (str : wcs) : wcs :=
  if negb (nonempty str) then []
  else if WORD_CHINESE_MAX_LEN cfg <=? 0 then cstr str
  else if to_int (Z.of_nat (wcslen str)) <=? WORD_CHINESE_MAX_LEN cfg then cstr str
  else take (Z.to_nat (if 240 <? WORD_CHINESE_MAX_LEN cfg then 240
                       else WORD_CHINESE_MAX_LEN cfg)) (cstr str)
       ++ [WELLIPSIS].

(** The truncation rule in the specification's words: in full when the
    maximum is not positive or the translation does not exceed it, otherwise
    its first [min max 240] characters and one ellipsis. *)
Definition translation_shown (max : Z) (str : wcs) : wcs :=
  if max <=? 0 then cstr str
  else if Z.of_nat (wcslen str) <=? max then cstr str
  else take (Z.to_nat (Z.min max 240)) (cstr str) ++ [WELLIPSIS].


(** ** Vocabulary of the further properties *)

(** The fields of a line joined again, a tab between consecutive fields. *)
Definition join_tabs (fs : list (list Z)) : list Z :=
  match fs with
  | [] => []
  | f :: fs' => f ++ concat ((λ g, WTAB :: g) <$> fs')
  end.

(** An entry with its four strings allocated and a name of at least one
    character. *)
Definition entry_complete (e : WordEntry) : Prop :=
  ∃ n u s t,
    e = {| name := Some n; uk := Some u; us := Some s; trans := Some t |} ∧
    n ≠ [] ∧ zero_free n ∧ zero_free u ∧ zero_free s ∧ zero_free t.

(** Where the array pointer is [NULL] the count is 0 and the index -1. *)
Definition empty_consistent (st : Store) : Prop :=
  g_words st = None → g_wordCount st = 0 ∧ g_currentIndex st = -1.

(** [WordsDisplay_Next] called once per reading of the tick counter in
    [nows], in order. *)
Fixpoint Next_all (conv : list Byte.byte → option (list Z)) (h : Host)
    (cfg : Config) (nows : list Z) (st : Store) : Store :=
  match nows with
  | [] => st
  | now :: nows' =>
      Next_all conv h cfg nows' (snd (WordsDisplay_Next conv h now cfg st))
  end.

(** A host whose resource has 10 rows, all of them blank. *)
Definition blank_host : Host :=
  {| host_resource := Some (rows_of 10 "  "); host_tick := 7 |}.

(** The text of the suffix for an entry, buffer capacity apart: two spaces,
    the name, the transcriptions the phonetic mode selects, each in brackets
    after a space and only when not empty, and, when the translation is shown
    and not empty, a space, a middle dot, a space and the translation as the
    truncation rule shows it. *)
Definition bracketed (p : option (list Z)) : list Z :=
  if present p then [WSPACE; WLBRACKET] ++ chars_of p ++ [WRBRACKET] else [].

Definition phonetic_text (cfg : Config) (e : WordEntry) : list Z :=
  if WORD_SHOW_PHONETIC cfg
  then
    if WORD_PHONETIC_MODE cfg =? 2 then bracketed (uk e) ++ bracketed (us e)
    else if WORD_PHONETIC_MODE cfg =? 1 then bracketed (us e)
    else bracketed (uk e)
  else [].

Definition translation_text (cfg : Config) (e : WordEntry) : list Z :=
  if WORD_SHOW_CHINESE cfg && present (trans e)
  then [WSPACE; WMIDDOT; WSPACE]
       ++ translation_shown (WORD_CHINESE_MAX_LEN cfg) (default [] (trans e))
  else [].

Definition suffix_text (cfg : Config) (e : WordEntry) : list Z :=
  [WSPACE; WSPACE] ++ chars_of (name e)
  ++ phonetic_text cfg e ++ translation_text cfg e.

(** The translation of the entry is short enough for its length to be an
    [int]. *)
Definition translation_fits_int (e : WordEntry) : Prop :=
  Z.of_nat (wcslen (default [] (trans e))) <= INT_MAX.

(** The outcome of formatting steps that leave in the buffer the text [text]
    cut at [n - 1] characters. *)
Definition appended (n : nat) (buf0 : list Z) (text : list Z)
    (r : option (option (list Z))) : Prop :=
  ∃ buf, r = Some (Some buf) ∧ holds_string buf (take (n - 1) text) ∧
         same_beyond n buf0 buf.

(** * Properties *)

(** ** Machine integers *)

Lemma to_int_id (z : Z) : is_int z → to_int z = z.
Proof.
  unfold is_int, INT_MIN, INT_MAX, to_int. intros Hz.
  rewrite Z.mod_small; lia.
Qed.

Lemma to_dword_id (z : Z) : is_dword z → to_dword z = z.
Proof.
  unfold is_dword, DWORD_MAX, to_dword. intros Hz.
  rewrite Z.mod_small; lia.
Qed.

Lemma to_int_is_int (z : Z) : is_int (to_int z).
Proof.
  unfold is_int, INT_MIN, INT_MAX, to_int.
  pose proof (Z.mod_pos_bound (z + 2 ^ 31) (2 ^ 32)). lia.
Qed.

Lemma to_dword_is_dword (z : Z) : is_dword (to_dword z).
Proof.
  unfold is_dword, DWORD_MAX, to_dword.
  pose proof (Z.mod_pos_bound z (2 ^ 32)). lia.
Qed.

Lemma to_int_le (z : Z) : 0 <= z → to_int z <= z.
Proof.
  unfold to_int. intros Hz.
  pose proof (Z.mod_le (z + 2 ^ 31) (2 ^ 32)). lia.
Qed.

(** ** C strings *)

Lemma cstr_zero_free (s : wcs) : zero_free (cstr s).
Proof.
  induction s as [|c s IH]; simpl; [constructor|].
  destruct (Z.eqb_spec c 0); constructor; auto.
Qed.

Lemma cstr_id (s : wcs) : zero_free s → cstr s = s.
Proof.
  induction 1 as [|c s Hc _ IH]; simpl; [done|].
  destruct (Z.eqb_spec c 0); [done|]. by rewrite IH.
Qed.

Lemma cstr_idemp (s : wcs) : cstr (cstr s) = cstr s.
Proof. apply cstr_id, cstr_zero_free. Qed.

Lemma zero_free_app (a b : wcs) : zero_free a → zero_free b → zero_free (a ++ b).
Proof. intros; by apply Forall_app. Qed.

Lemma zero_free_take (n : nat) (s : wcs) : zero_free s → zero_free (take n s).
Proof. apply Forall_take. Qed.

Lemma zero_free_drop (n : nat) (s : wcs) : zero_free s → zero_free (drop n s).
Proof. apply Forall_drop. Qed.

(** A zero-free run followed by a zero cell reads as that run. *)
Lemma cstr_app_zero (a rest : wcs) : zero_free a → cstr (a ++ 0 :: rest) = a.
Proof.
  induction 1 as [|c a Hc _ IH]; simpl; [done|].
  destruct (Z.eqb_spec c 0); [done|]. by rewrite IH.
Qed.

Lemma nonempty_cstr (s : wcs) : nonempty s = true ↔ cstr s ≠ [].
Proof.
  destruct s as [|c s]; simpl; [done|].
  destruct (Z.eqb_spec c 0); simpl; split; done.
Qed.

(** ** Trimming *)

Lemma trim_trailing_len_le (s : wcs) (len : nat) :
  (trim_trailing_len s len ≤ len)%nat.
Proof.
  induction len as [|n IH]; simpl; [lia|].
  destruct (is_trailing_ws (nth n s 0)); lia.
Qed.

Lemma trim_trailing_len_dropped (s : wcs) (len : nat) :
  (len ≤ length s)%nat →
  Forall (λ c, is_trailing_ws c = true)
         (drop (trim_trailing_len s len) (take len s)).
Proof.
  induction len as [|n IH]; intros Hlen; simpl trim_trailing_len.
  - by rewrite take_0.
  - destruct (lookup_lt_is_Some_2 s n) as [x Hx]; [lia|].
    rewrite nth_lookup, Hx. simpl.
    destruct (is_trailing_ws x) eqn:Hws.
    + rewrite (take_S_r _ _ _ Hx).
      pose proof (trim_trailing_len_le s n).
      rewrite drop_app_le by (rewrite length_take; lia).
      apply Forall_app. split; [apply IH; lia|]. by repeat constructor.
    + rewrite drop_ge by (rewrite length_take; lia). constructor.
Qed.

Lemma trim_trailing_len_last (s : wcs) (len : nat) (c : wchar) :
  (len ≤ length s)%nat →
  last (take (trim_trailing_len s len) s) = Some c → is_trailing_ws c = false.
Proof.
  induction len as [|n IH]; intros Hlen; simpl trim_trailing_len.
  - by rewrite take_0.
  - destruct (lookup_lt_is_Some_2 s n) as [x Hx]; [lia|].
    rewrite nth_lookup, Hx. simpl.
    destruct (is_trailing_ws x) eqn:Hws.
    + apply IH; lia.
    + rewrite (take_S_r _ _ _ Hx), last_snoc. congruence.
Qed.

Lemma skip_leading_split (p : wcs) :
  ∃ pre, p = pre ++ skip_leading p ∧ Forall (λ c, is_leading_ws c = true) pre.
Proof.
  induction p as [|c p (pre & Hp & Hpre)]; simpl.
  - by exists [].
  - destruct (is_leading_ws c) eqn:Hc.
    + exists (c :: pre). split; [simpl; congruence|by constructor].
    + by exists [].
Qed.

Lemma skip_leading_head (p : wcs) (c : wchar) :
  head (skip_leading p) = Some c → is_leading_ws c = false.
Proof.
  induction p as [|c' p IH]; simpl; [done|].
  destruct (is_leading_ws c') eqn:Hc; [done|]. simpl. congruence.
Qed.

Lemma skip_leading_last (p : wcs) (c : wchar) :
  last (skip_leading p) = Some c → last p = Some c.
Proof.
  destruct (skip_leading_split p) as (pre & Hp & _). intros Hl.
  rewrite Hp at 1. by rewrite last_app, Hl.
Qed.

Lemma TrimWideInPlace_split (s : wcs) :
  ∃ pre suf,
    cstr s = pre ++ TrimWideInPlace s ++ suf ∧
    Forall (λ c, is_leading_ws c = true) pre ∧
    Forall (λ c, is_trailing_ws c = true) suf.
Proof.
  unfold TrimWideInPlace. set (s0 := cstr s).
  set (k := trim_trailing_len s0 (length s0)).
  destruct (skip_leading_split (take k s0)) as (pre & Hp & Hpre).
  exists pre, (drop k s0). repeat split; [|done|].
  - rewrite app_assoc, <- Hp. by rewrite take_drop.
  - pose proof (trim_trailing_len_dropped s0 (length s0)) as Hd.
    rewrite firstn_all in Hd. apply Hd. lia.
Qed.

Lemma TrimWideInPlace_trimmed (s : wcs) : trimmed (TrimWideInPlace s).
Proof.
  unfold TrimWideInPlace. split; intros c Hc.
  - by eapply skip_leading_head.
  - apply skip_leading_last in Hc.
    eapply trim_trailing_len_last; [|exact Hc]. lia.
Qed.

Lemma TrimWideInPlace_zero_free (s : wcs) : zero_free (TrimWideInPlace s).
Proof.
  destruct (TrimWideInPlace_split s) as (pre & suf & Hs & _).
  pose proof (cstr_zero_free s) as Hz. rewrite Hs in Hz.
  apply Forall_app in Hz as [_ Hz]. by apply Forall_app in Hz as [Hz _].
Qed.

Lemma TrimWideInPlace_nil : TrimWideInPlace [] = [].
Proof. reflexivity. Qed.

(** ** Rows *)

Lemma raw_field_trim (line : wcs) (k : nat) :
  default [] ((TrimWideInPlace <$> split_fields 1 line) !! k)
  = TrimWideInPlace (raw_field line k).
Proof.
  unfold raw_field. rewrite list_lookup_fmap.
  by destruct (split_fields 1 line !! k).
Qed.

Lemma zero_free_nonempty (f : wcs) : zero_free f → nonempty f = false → f = [].
Proof.
  intros Hz Hn. destruct f as [|c f]; [done|].
  apply Forall_cons in Hz as [Hc _]. simpl in Hn.
  destruct (Z.eqb_spec c 0); done.
Qed.

(** [(fi > k && fields[k] && fields[k][0]) ? DupWide(fields[k]) : DupWide(L"")]
    is the field either way. *)
Lemma pick_field (b : bool) (f : wcs) :
  zero_free f → (b = false → f = []) →
  (if b && nonempty f then DupWide f else DupWide []) = Some f.
Proof.
  intros Hz Hb. destruct b; simpl.
  - destruct (nonempty f) eqn:Hn; unfold DupWide.
    + by rewrite cstr_id.
    + by rewrite (zero_free_nonempty f).
  - by rewrite Hb.
Qed.

Lemma raw_field_missing (line : wcs) (k : nat) :
  (k <? length (TrimWideInPlace <$> split_fields 1 line))%nat = false →
  TrimWideInPlace (raw_field line k) = [].
Proof.
  rewrite length_fmap. intros Hk. apply Nat.ltb_ge in Hk.
  unfold raw_field. by rewrite (lookup_ge_None_2 _ _ Hk).
Qed.

Lemma ParseLine_fields (line : wcs) (e : WordEntry) :
  ParseLine line = Some e →
  name e = Some (TrimWideInPlace (raw_field line 0)) ∧
  uk e = Some (TrimWideInPlace (raw_field line 1)) ∧
  us e = Some (TrimWideInPlace (raw_field line 2)) ∧
  trans e = Some (TrimWideInPlace (raw_field line 3)).
Proof.
  unfold ParseLine. rewrite !raw_field_trim.
  destruct (_ && _) eqn:Hname; [|done].
  intros [= <-]. simpl.
  apply andb_prop in Hname as [_ Hname].
  repeat split.
  - unfold DupWide. by rewrite cstr_id by apply TrimWideInPlace_zero_free.
  - apply pick_field; [apply TrimWideInPlace_zero_free|apply raw_field_missing].
  - apply pick_field; [apply TrimWideInPlace_zero_free|apply raw_field_missing].
  - apply pick_field; [apply TrimWideInPlace_zero_free|apply raw_field_missing].
Qed.

(** C9, as the code has it.  Every field the parser stores is the
    [TrimWideInPlace] of the tab-separated field of its line; trimming removes
    trailing spaces, tabs, carriage returns and newlines, and then leading
    spaces and tabs only, and nothing else; the field of two spaces, [cat], a
    tab and a space trims to [cat]. *)
Theorem ParseLine_fields_trimmed (line : wcs) (e : WordEntry) :
  ParseLine line = Some e →
  (name e = Some (TrimWideInPlace (raw_field line 0)) ∧
   uk e = Some (TrimWideInPlace (raw_field line 1)) ∧
   us e = Some (TrimWideInPlace (raw_field line 2)) ∧
   trans e = Some (TrimWideInPlace (raw_field line 3))) ∧
  (∀ s : wcs,
     trimmed (TrimWideInPlace s) ∧
     ∃ pre suf,
       cstr s = pre ++ TrimWideInPlace s ++ suf ∧
       Forall (λ c, is_leading_ws c = true) pre ∧
       Forall (λ c, is_trailing_ws c = true) suf) ∧
  TrimWideInPlace (L "  cat" ++ [WTAB; WSPACE]) = L "cat".
Proof.
  intros He. split; [by apply ParseLine_fields|]. split; [|reflexivity].
  intros s. split; [apply TrimWideInPlace_trimmed|apply TrimWideInPlace_split].
Qed.

Lemma ParseLine_fields_trimmed_witness :
  ∃ e, ParseLine (L "  cat " ++ [WTAB; WSPACE; WTAB; WTAB] ++ L " n. " ++ [WCR])
       = Some e ∧
       name e = Some (L "cat") ∧ uk e = Some [] ∧ trans e = Some (L "n.").
Proof.
  eexists. split; [reflexivity|].
  destruct (ParseLine_fields_trimmed
              (L "  cat " ++ [WTAB; WSPACE; WTAB; WTAB] ++ L " n. " ++ [WCR]) _
              eq_refl) as [(Hn & Hu & _ & Ht) _].
  split; [exact Hn|]. split; [exact Hu|exact Ht].
Defined.

(** C9, as stated, fails: a carriage return at the head of a field is kept.
    The line [x], tab, carriage return, [y] yields the UK field carriage
    return, [y]. *)
Lemma leading_cr_survives :
  ∃ e, ParseLine (L "x" ++ [WTAB; WCR] ++ L "y") = Some e ∧
       uk e = Some (WCR :: L "y") ∧
       ¬ fully_trimmed (WCR :: L "y") ∧
       TrimWideInPlace (WCR :: L "cat") = WCR :: L "cat".
Proof.
  eexists. split; [reflexivity|]. split; [reflexivity|]. split; [|reflexivity].
  intros [Hhead _]. by specialize (Hhead WCR eq_refl).
Qed.

(** ** The parser's counters *)

Lemma to_int_add_idemp (a b : Z) : to_int (to_int a + b) = to_int (a + b).
Proof.
  unfold to_int.
  replace ((a + 2 ^ 31) mod 2 ^ 32 - 2 ^ 31 + b + 2 ^ 31)
    with ((a + 2 ^ 31) mod 2 ^ 32 + b) by lia.
  rewrite Zplus_mod_idemp_l. do 2 f_equal. lia.
Qed.

Lemma count_lines_no_overflow (acc : Z) (p : wcs) :
  is_int acc →
  acc + Z.of_nat (length (filter (λ c, c = WNL) p)) <= INT_MAX →
  count_lines acc p = acc + Z.of_nat (length (filter (λ c, c = WNL) p)).
Proof.
  revert acc. induction p as [|c p IH]; intros acc Hacc Hmax; simpl count_lines.
  - rewrite filter_nil. simpl. lia.
  - destruct (Z.eqb_spec c WNL) as [Hc|Hc].
    + rewrite filter_cons_True in * by done. simpl length in *.
      assert (is_int (acc + 1)) as Hacc' by (unfold is_int in *; lia).
      rewrite (to_int_id _ Hacc'), IH; [lia|done|lia].
    + rewrite filter_cons_False in * by done. by apply IH.
Qed.

Lemma ParseWide_lines (wide : wcs) :
  Z.of_nat (wcslen wide) <= INT_MAX →
  count_lines 0 (cstr wide) = line_count wide.
Proof.
  intros Hlen. unfold line_count.
  pose proof (length_filter (λ c, c = WNL) (cstr wide)) as Hle.
  unfold wcslen in Hlen.
  rewrite count_lines_no_overflow; [lia| |lia].
  unfold is_int, INT_MIN, INT_MAX. lia.
Qed.

Lemma length_omap_le {A B} (f : A → option B) (l : list A) :
  (length (omap f l) ≤ length l)%nat.
Proof.
  induction l as [|x l IH]; [simpl; lia|].
  change (omap f (x :: l))
    with (match f x with Some y => y :: omap f l | None => omap f l end).
  destruct (f x); simpl; lia.
Qed.

Lemma wcstok_lines_length (cur s : wcs) :
  (length (wcstok_lines cur s)
   ≤ length s + match cur with [] => 0 | _ => 1 end)%nat.
Proof.
  revert cur. induction s as [|c s IH]; intros cur; simpl.
  - destruct cur; simpl; lia.
  - destruct (c =? WNL).
    + specialize (IH []). destruct cur; simpl in *; lia.
    + specialize (IH (cur ++ [c])).
      destruct (cur ++ [c]) eqn:E; [by destruct cur|].
      destruct cur; lia.
Qed.

Lemma parse_lines_spec (toks : list wcs) (arr : list WordEntry) (c : Z) :
  parse_lines toks arr (to_int c)
  = (arr ++ omap ParseLine toks,
     to_int (c + Z.of_nat (length (omap ParseLine toks)))).
Proof.
  revert arr c. induction toks as [|line toks IH]; intros arr c.
  - simpl. by rewrite app_nil_r, Z.add_0_r.
  - change (omap ParseLine (line :: toks))
      with (match ParseLine line with
            | Some y => y :: omap ParseLine toks
            | None => omap ParseLine toks
            end).
    simpl. destruct (ParseLine line) as [e|]; [|apply IH].
    rewrite to_int_add_idemp, IH, <- app_assoc. simpl.
    do 2 f_equal. lia.
Qed.

(** The rows of a buffer: the entries of its lines, in order. *)
Lemma ParseWide_rows (wide : wcs) :
  Z.of_nat (wcslen wide) <= INT_MAX →
  parse_lines (wcstok_lines [] (cstr wide)) [] 0
  = (omap ParseLine (wcstok_lines [] (cstr wide)),
     Z.of_nat (length (omap ParseLine (wcstok_lines [] (cstr wide))))).
Proof.
  intros Hlen. change 0 with (to_int 0) at 1.
  rewrite parse_lines_spec. simpl. f_equal.
  pose proof (length_omap_le ParseLine (wcstok_lines [] (cstr wide))).
  pose proof (wcstok_lines_length [] (cstr wide)).
  unfold wcslen in Hlen.
  apply to_int_id. unfold is_int, INT_MIN, INT_MAX in *. lia.
Qed.

Lemma unlines_cons (l : wcs) (ls : list wcs) :
  unlines (l :: ls) = (l ++ [WNL]) ++ unlines ls.
Proof. reflexivity. Qed.

Lemma unlines_zero_free (ls : list wcs) : Forall is_line ls → zero_free (unlines ls).
Proof.
  induction 1 as [|l ls Hl _ IH]; [constructor|].
  rewrite unlines_cons. apply zero_free_app; [|done].
  apply zero_free_app; [|by repeat constructor].
  eapply Forall_impl; [exact Hl|]. by intros c [? _].
Qed.

Lemma unlines_newlines (ls : list wcs) :
  Forall is_line ls →
  length (filter (λ c, c = WNL) (unlines ls)) = length ls.
Proof.
  induction 1 as [|l ls Hl _ IH]; [done|].
  rewrite unlines_cons, !filter_app, !length_app, IH.
  assert (filter (λ c, c = WNL) l = []) as ->.
  { clear -Hl. induction Hl as [|c l [_ Hc] _ IH]; [done|].
    by rewrite filter_cons_False. }
  by rewrite filter_cons_True.
Qed.

Lemma line_count_unlines (ls : list wcs) :
  Forall is_line ls → line_count (unlines ls) = Z.of_nat (length ls).
Proof.
  intros Hls. unfold line_count.
  by rewrite (cstr_id _ (unlines_zero_free ls Hls)), unlines_newlines.
Qed.

Lemma split_on_newline_length (cur s : wcs) :
  (length (filter (λ c, c = WNL) s) ≤ length (split_on_newline cur s)
   ≤ length (filter (λ c, c = WNL) s) + 1)%nat.
Proof.
  revert cur. induction s as [|c s IH]; intros cur; simpl split_on_newline.
  - rewrite filter_nil. destruct cur; simpl; lia.
  - destruct (Z.eqb_spec c WNL) as [Hc|Hc].
    + rewrite filter_cons_True by done. specialize (IH []). simpl. lia.
    + rewrite filter_cons_False by done. apply IH.
Qed.

Lemma lines_of_line_count (wide : wcs) :
  line_count wide <= Z.of_nat (length (lines_of wide)) <= line_count wide + 1.
Proof.
  unfold line_count, lines_of.
  pose proof (split_on_newline_length [] (cstr wide)). lia.
Qed.

(** C4, as the code has it.  [ParseTsvToWords] counts newline characters:
    it leaves through the [lines < 10] exit exactly when the converted buffer
    has fewer than 10 of them; with 10 or more it goes on to the rows, and its
    result is decided by them alone (the entries of the lines that yield one,
    or the [count <= 0] exit when no line does).  Against the lines of the
    buffer: a buffer made of [n] lines, each ended by its newline, has [n]
    newlines; a buffer of fewer than 10 lines is always rejected; the number
    of lines is the number of newlines, or one more when a last row lacks its
    newline, and that row is not counted. *)
Theorem ParseTsvToWords_InsufficientData
    (conv : list Byte.byte → option wcs) (buf : list Byte.byte) (wide : wcs)
    (st : Store) :
  conv (utf8_cstr buf) = Some wide →
  Z.of_nat (wcslen wide) <= INT_MAX →
  (fst (ParseTsvToWords conv (Some buf) st) = Failed InsufficientData
   ↔ line_count wide < 10) ∧
  (10 <= line_count wide →
   ParseTsvToWords conv (Some buf) st
   = match omap ParseLine (wcstok_lines [] (cstr wide)) with
     | [] => (Failed NoUsableEntries, st)
     | rows => (Parsed, set_words (Some rows) (Z.of_nat (length rows)) 0 st)
     end) ∧
  (∀ ls, Forall is_line ls → line_count (unlines ls) = Z.of_nat (length ls)) ∧
  (Z.of_nat (length (lines_of wide)) < 10 →
   fst (ParseTsvToWords conv (Some buf) st) = Failed InsufficientData) ∧
  line_count wide <= Z.of_nat (length (lines_of wide)) <= line_count wide + 1.
Proof.
  intros Hconv Hlen.
  assert (10 <= line_count wide →
          ParseTsvToWords conv (Some buf) st
          = match omap ParseLine (wcstok_lines [] (cstr wide)) with
            | [] => (Failed NoUsableEntries, st)
            | rows => (Parsed, set_words (Some rows) (Z.of_nat (length rows)) 0 st)
            end) as Hrows.
  { intros H10. unfold ParseTsvToWords, ParseWide.
    rewrite Hconv, (ParseWide_lines _ Hlen), (ParseWide_rows _ Hlen).
    destruct (Z.ltb_spec (line_count wide) 10); [lia|].
    by destruct (omap ParseLine (wcstok_lines [] (cstr wide))). }
  assert (line_count wide < 10 →
          fst (ParseTsvToWords conv (Some buf) st) = Failed InsufficientData)
    as Hfew.
  { intros H9. unfold ParseTsvToWords, ParseWide.
    rewrite Hconv, (ParseWide_lines _ Hlen).
    by destruct (Z.ltb_spec (line_count wide) 10); [|lia]. }
  pose proof (lines_of_line_count wide) as Hlines.
  split; [|split; [exact Hrows|split; [apply line_count_unlines|split]]].
  - split; [|exact Hfew].
    intros Hfail. destruct (Z.lt_ge_cases (line_count wide) 10) as [|H10]; [done|].
    rewrite (Hrows H10) in Hfail.
    by destruct (omap ParseLine (wcstok_lines [] (cstr wide))).
  - intros Hshort. apply Hfew. lia.
  - exact Hlines.
Qed.

Lemma ParseTsvToWords_InsufficientData_witness :
  fst (ParseTsvToWords ascii_wide (Some (rows_of 9 "cat")) initial_store)
  = Failed InsufficientData ∧
  fst (ParseTsvToWords ascii_wide (Some (rows_of 10 "cat")) initial_store)
  = Parsed.
Proof.
  split.
  - destruct (ParseTsvToWords_InsufficientData ascii_wide (rows_of 9 "cat") _
                initial_store eq_refl ltac:(by vm_compute))
      as (_ & _ & _ & Hshort & _).
    apply Hshort. by vm_compute.
  - assert (10 <= line_count (default [] (ascii_wide (rows_of 10 "cat"))))
      as H10 by (by vm_compute).
    destruct (ParseTsvToWords_InsufficientData ascii_wide (rows_of 10 "cat") _
                initial_store eq_refl ltac:(by vm_compute)) as (_ & Hrows & _).
    by rewrite (Hrows H10).
Defined.

(** C4, as stated, fails: the buffer of 9 rows [cat], each ended by its
    newline, followed by a tenth row [cat] without newline, has 10 lines, and
    the line loop would find 10 tokens and 10 usable rows in it; the guard
    counts its 9 newlines and the parser leaves through the [lines < 10]
    exit. *)
Lemma ten_lines_rejected_without_final_newline :
  length (lines_of (default [] (ascii_wide (rows_of 9 "cat" ++ B "cat"))))
  = 10%nat ∧
  length (omap ParseLine
            (wcstok_lines []
               (cstr (default [] (ascii_wide (rows_of 9 "cat" ++ B "cat"))))))
  = 10%nat ∧
  line_count (default [] (ascii_wide (rows_of 9 "cat" ++ B "cat"))) = 9 ∧
  ParseTsvToWords ascii_wide (Some (rows_of 9 "cat" ++ B "cat")) initial_store
  = (Failed InsufficientData, initial_store).
Proof. repeat split; by vm_compute. Qed.

(** ** The store *)

Lemma ParseWide_ok (wide : wcs) (arr : list WordEntry) (count : Z) :
  ParseWide wide = inr (arr, count) →
  0 < count <= INT_MAX ∧ count <= Z.of_nat (length arr).
Proof.
  unfold ParseWide. destruct (_ <? 10); [done|].
  change 0 with (to_int 0) at 1. rewrite parse_lines_spec.
  destruct (Z.leb_spec (to_int (0 + Z.of_nat (length (omap ParseLine
              (wcstok_lines [] (cstr wide)))))) 0) as [|Hpos]; [done|].
  intros [= <- <-]. simpl app.
  pose proof (to_int_is_int (0 + Z.of_nat (length (omap ParseLine
                (wcstok_lines [] (cstr wide)))))) as [_ Hmax].
  pose proof (to_int_le (0 + Z.of_nat (length (omap ParseLine
                (wcstok_lines [] (cstr wide)))))).
  lia.
Qed.

Lemma WordsDisplay_Init_cases (conv : list Byte.byte → option wcs)
    (h : Host) (cfg : Config) (st : Store) :
  (g_initialized st = true ∧ WordsDisplay_Init conv h cfg st = (true, st)) ∨
  (g_initialized st = false ∧
   WordsDisplay_Init conv h cfg st = (false, set_initialized true st)) ∨
  (g_initialized st = false ∧
   ∃ arr count,
     0 < count <= INT_MAX ∧ count <= Z.of_nat (length arr) ∧
     WordsDisplay_Init conv h cfg st
     = (true, loaded_store arr count (GetTickCount h)
                (WORD_SWITCH_INTERVAL_SEC cfg) st)).
Proof.
  unfold WordsDisplay_Init.
  destruct (g_initialized st) eqn:Hinit; [by left|right].
  destruct (LoadResourceToUtf8Buffer h) as [buf|]; [|by left].
  unfold ParseTsvToWords.
  destruct (conv (utf8_cstr buf)) as [wide|]; [|by left].
  destruct (ParseWide wide) as [e|[arr count]] eqn:Hparse; [by left|right].
  destruct (ParseWide_ok _ _ _ Hparse) as [Hcount Harr].
  split; [done|]. exists arr, count. repeat split; try lia.
  simpl. destruct (Z.ltb_spec 0 count); [|lia].
  unfold loaded_store, set_nextSwitchTick, set_currentIndex. simpl.
  assert (to_dword count = count) as ->.
  { apply to_dword_id. unfold is_dword, DWORD_MAX, INT_MAX in *. lia. }
  rewrite to_int_id; [done|].
  pose proof (Z.mod_pos_bound (GetTickCount h) count).
  unfold is_int, INT_MIN, INT_MAX in *. lia.
Qed.

Lemma set_currentIndex_same (st : Store) :
  set_currentIndex (g_currentIndex st) st = st.
Proof. by destruct st. Qed.

Lemma SetCurrentIndex_spec (idx : Z) (st : Store) :
  no_words st = false →
  SetCurrentIndex idx st
  = (negb (g_currentIndex st =? clamp_index idx (g_wordCount st)),
     set_currentIndex (clamp_index idx (g_wordCount st)) st).
Proof.
  intros Hw. unfold SetCurrentIndex, clamp_index. rewrite Hw.
  assert ((if g_wordCount st <=? (if idx <? 0 then 0 else idx) then 0
           else if idx <? 0 then 0 else idx)
          = if (0 <=? idx) && (idx <? g_wordCount st) then idx else 0) as ->.
  { destruct (Z.ltb_spec idx 0), (Z.leb_spec 0 idx); try lia; simpl.
    - by destruct (_ <=? 0).
    - destruct (Z.leb_spec (g_wordCount st) idx), (Z.ltb_spec idx (g_wordCount st));
        lia || done. }
  destruct (Z.eqb_spec (g_currentIndex st)
              (if (0 <=? idx) && (idx <? g_wordCount st) then idx else 0))
    as [Heq|Hne]; simpl; [|done].
  by rewrite <- Heq, set_currentIndex_same.
Qed.

Lemma no_words_false (st : Store) :
  no_words st = false ↔ (∃ ws, g_words st = Some ws) ∧ 0 < g_wordCount st.
Proof.
  unfold no_words. destruct (g_words st) as [ws|].
  - destruct (Z.leb_spec (g_wordCount st) 0); split;
      [done|intros [_ ?]; lia|intros _; split; [by eexists|lia]|done].
  - split; [done|]. by intros [[ws [=]] _].
Qed.

Lemma clamp_index_range (idx count : Z) :
  0 < count → 0 <= clamp_index idx count < count.
Proof.
  unfold clamp_index. intros Hc.
  destruct (Z.leb_spec 0 idx), (Z.ltb_spec idx count); simpl; lia.
Qed.

(** Within the range, one step forward and back to 0 after the last entry. *)
Lemma clamp_index_succ (idx count : Z) :
  0 <= idx < count → clamp_index (idx + 1) count = (idx + 1) mod count.
Proof.
  unfold clamp_index. intros Hi.
  destruct (Z.leb_spec 0 (idx + 1)); [|lia].
  destruct (Z.ltb_spec (idx + 1) count); simpl.
  - by rewrite Z.mod_small by lia.
  - assert (idx + 1 = count) as -> by lia. by rewrite Z.mod_same by lia.
Qed.

(** With two entries or more the step always moves the index. *)
Lemma clamp_index_moves (idx count : Z) :
  2 <= count → clamp_index (to_int (idx + 1)) count ≠ idx.
Proof.
  unfold clamp_index. intros Hc Heq.
  destruct (Z.leb_spec 0 (to_int (idx + 1))),
           (Z.ltb_spec (to_int (idx + 1)) count); simpl in Heq; try lia.
  - revert Heq. unfold to_int.
    pose proof (Z.mod_pos_bound (idx + 1 + 2 ^ 31) (2 ^ 32)).
    intros Heq.
    assert ((idx + 1 + 2 ^ 31) mod 2 ^ 32 = idx + 2 ^ 31) as Hm by lia.
    assert ((idx + 2 ^ 31 + 1) mod 2 ^ 32 = (idx + 2 ^ 31) mod 2 ^ 32 ) as Hc'.
    { rewrite <- Hm at 2. rewrite Z.mod_mod by lia. f_equal. lia. }
    rewrite (Z.mod_small (idx + 2 ^ 31)) in Hc' by lia.
    replace (idx + 1 + 2 ^ 31) with (idx + 2 ^ 31 + 1) in Hm by lia.
    destruct (Z.eq_dec (idx + 2 ^ 31 + 1) (2 ^ 32)) as [E|E].
    + rewrite E, Z.mod_same in Hm; lia.
    + rewrite Z.mod_small in Hm; lia.
  - subst idx. change (to_int (0 + 1)) with 1 in *. lia.
  - subst idx. change (to_int (0 + 1)) with 1 in *. lia.
Qed.

Lemma to_dword_interval (a sec : Z) :
  to_dword (a + to_dword (to_dword sec * 1000)) = to_dword (a + sec * 1000).
Proof.
  unfold to_dword.
  rewrite Zplus_mod_idemp_r, Z.add_mod, Zmult_mod_idemp_l, <- Z.add_mod; lia.
Qed.

Lemma lazy_init_initialized (conv : list Byte.byte → option wcs)
    (h : Host) (cfg : Config) (st : Store) :
  g_initialized st = true → lazy_init conv h cfg st = st.
Proof. unfold lazy_init. by intros ->. Qed.

Lemma lazy_init_cases (conv : list Byte.byte → option wcs)
    (h : Host) (cfg : Config) (st : Store) :
  lazy_init conv h cfg st = st ∨
  lazy_init conv h cfg st = set_initialized true st ∨
  ∃ arr count,
    0 < count <= INT_MAX ∧ count <= Z.of_nat (length arr) ∧
    lazy_init conv h cfg st
    = loaded_store arr count (GetTickCount h) (WORD_SWITCH_INTERVAL_SEC cfg) st.
Proof.
  unfold lazy_init. destruct (g_initialized st) eqn:Hinit; [by left|].
  destruct (WordsDisplay_Init_cases conv h cfg st)
    as [[? ->]|[[_ ->]|(_ & arr & count & ? & ? & ->)]]; [by left|right; by left|].
  right; right. by exists arr, count.
Qed.

Lemma loaded_store_wf (arr : list WordEntry) (count tick sec : Z) (st : Store) :
  0 < count <= INT_MAX → count <= Z.of_nat (length arr) →
  store_wf (loaded_store arr count tick sec st).
Proof.
  intros Hc Harr. unfold store_wf, loaded_store; simpl.
  pose proof (Z.mod_pos_bound tick count).
  repeat split; try apply to_dword_is_dword;
    unfold INT_MIN, INT_MAX in *; lia.
Qed.

Lemma loaded_store_index (arr : list WordEntry) (count tick sec : Z) (st : Store) :
  0 < count → index_in_range (loaded_store arr count tick sec st).
Proof.
  intros Hc _. simpl. apply Z.mod_pos_bound. lia.
Qed.

Lemma lazy_init_wf (conv : list Byte.byte → option wcs)
    (h : Host) (cfg : Config) (st : Store) :
  store_wf st → store_wf (lazy_init conv h cfg st).
Proof.
  intros Hwf.
  destruct (lazy_init_cases conv h cfg st)
    as [->|[->|(arr & count & ? & ? & ->)]]; [done|done|].
  by apply loaded_store_wf.
Qed.

Lemma lazy_init_index (conv : list Byte.byte → option wcs)
    (h : Host) (cfg : Config) (st : Store) :
  index_in_range st → index_in_range (lazy_init conv h cfg st).
Proof.
  intros Hidx.
  destruct (lazy_init_cases conv h cfg st)
    as [->|[->|(arr & count & ? & ? & ->)]]; [done|done|].
  apply loaded_store_index. lia.
Qed.

Lemma SetCurrentIndex_index (idx : Z) (st : Store) :
  no_words st = false → index_in_range (snd (SetCurrentIndex idx st)).
Proof.
  intros Hw _. rewrite (SetCurrentIndex_spec _ _ Hw). simpl.
  apply clamp_index_range. by apply no_words_false in Hw as [_ ?].
Qed.

Lemma WordsDisplay_Next_index (conv : list Byte.byte → option wcs)
    (h : Host) (now : Z) (cfg : Config) (st : Store) :
  index_in_range st → index_in_range (snd (WordsDisplay_Next conv h now cfg st)).
Proof.
  intros Hidx. unfold WordsDisplay_Next.
  pose proof (lazy_init_index conv h cfg st Hidx) as Hidx0.
  destruct (no_words (lazy_init conv h cfg st)) eqn:Hw; [done|].
  pose proof (SetCurrentIndex_index
                (to_int (g_currentIndex (lazy_init conv h cfg st) + 1)) _ Hw) as Hs.
  destruct (SetCurrentIndex _ _) as [changed st1]. simpl in *.
  by destruct (0 <? WORD_SWITCH_INTERVAL_SEC cfg).
Qed.

Lemma WordsDisplay_Tick_index (conv : list Byte.byte → option wcs)
    (h : Host) (now : Z) (cfg : Config) (st : Store) :
  index_in_range st → index_in_range (snd (WordsDisplay_Tick conv h now cfg st)).
Proof.
  intros Hidx. unfold WordsDisplay_Tick.
  destruct (WORD_DISPLAY_ENABLED cfg); [simpl|done].
  pose proof (lazy_init_index conv h cfg st Hidx) as Hidx0.
  destruct (no_words (lazy_init conv h cfg st)) eqn:Hw; [done|].
  destruct (_ <=? 0); [done|]. destruct (_ <=? now); [|done].
  pose proof (SetCurrentIndex_index
                (to_int (g_currentIndex (lazy_init conv h cfg st) + 1)) _ Hw) as Hs.
  by destruct (SetCurrentIndex _ _) as [changed st1].
Qed.

Lemma WordsDisplay_FormatSuffix_store (conv : list Byte.byte → option wcs)
    (h : Host) (cfg : Config) (out : option wcs) (outChars : nat) (st : Store) :
  fst (WordsDisplay_FormatSuffix conv h cfg out outChars st) = st ∨
  fst (WordsDisplay_FormatSuffix conv h cfg out outChars st)
  = lazy_init conv h cfg st.
Proof.
  unfold WordsDisplay_FormatSuffix.
  destruct out as [buf|]; [|by left].
  destruct (outChars =? 0)%nat; [by left|].
  destruct (store_cell buf 0 0); [|by left].
  destruct (WORD_DISPLAY_ENABLED cfg); [simpl|by left].
  right. by destruct (_ || _).
Qed.

(** C8.  The range of the current index is an invariant of the store: it
    holds of the initial store and every operation keeps it. *)
Theorem index_in_range_preserved (conv : list Byte.byte → option wcs)
    (h : Host) (now : Z) (cfg : Config) (out : option wcs) (outChars : nat)
    (st : Store) :
  index_in_range st →
  index_in_range (snd (WordsDisplay_Init conv h cfg st)) ∧
  index_in_range (snd (WordsDisplay_Next conv h now cfg st)) ∧
  index_in_range (snd (WordsDisplay_Tick conv h now cfg st)) ∧
  index_in_range (fst (WordsDisplay_FormatSuffix conv h cfg out outChars st)) ∧
  index_in_range (WordsDisplay_Shutdown st) ∧
  index_in_range initial_store.
Proof.
  intros Hidx. repeat apply conj.
  - destruct (WordsDisplay_Init_cases conv h cfg st)
      as [[_ ->]|[[_ ->]|(_ & arr & count & ? & ? & ->)]];
      [exact Hidx|exact Hidx|].
    apply loaded_store_index. lia.
  - by apply WordsDisplay_Next_index.
  - by apply WordsDisplay_Tick_index.
  - destruct (WordsDisplay_FormatSuffix_store conv h cfg out outChars st)
      as [->| ->]; [done|by apply lazy_init_index].
  - unfold WordsDisplay_Shutdown, FreeWords, index_in_range, no_words.
    by destruct (g_words st).
  - done.
Qed.

Lemma index_in_range_preserved_witness :
  index_in_range
    (snd (WordsDisplay_Next ascii_wide no_host 0 enabled_config (two_words 1 0))) ∧
  index_in_range
    (snd (WordsDisplay_Init ascii_wide rows_host enabled_config initial_store)).
Proof.
  split.
  - apply (index_in_range_preserved ascii_wide no_host 0 enabled_config None 0
             (two_words 1 0)).
    intros _. simpl. lia.
  - apply (index_in_range_preserved ascii_wide rows_host 0 enabled_config None 0
             initial_store).
    intros Hw. vm_compute in Hw. discriminate.
Defined.

(** C10.  With the display switched off, [WordsDisplay_Tick] returns [FALSE]
    and [WordsDisplay_FormatSuffix] stores the terminator in the first cell of
    the buffer and nothing else; both leave every global as it was, the
    initialised flag included. *)
Theorem disabled_is_inert (conv : list Byte.byte → option wcs)
    (h : Host) (now : Z) (cfg : Config) (buf : wcs) (outChars : nat) (st : Store) :
  WORD_DISPLAY_ENABLED cfg = false →
  (0 < outChars ≤ length buf)%nat →
  WordsDisplay_Tick conv h now cfg st = (false, st) ∧
  WordsDisplay_FormatSuffix conv h cfg (Some buf) outChars st
  = (st, Some (Some (<[0%nat := 0]> buf))) ∧
  cstr (<[0%nat := 0]> buf) = [] ∧
  WordsDisplay_FormatSuffix conv h cfg (Some buf) 0 st = (st, Some (Some buf)) ∧
  WordsDisplay_FormatSuffix conv h cfg None outChars st = (st, Some None).
Proof.
  intros Hoff [Hpos Hlen].
  unfold WordsDisplay_Tick, WordsDisplay_FormatSuffix, store_cell.
  rewrite Hoff. simpl negb. cbv iota.
  destruct (Nat.eqb_spec outChars 0); [lia|].
  destruct (Nat.ltb_spec 0 (length buf)); [|lia].
  repeat split. destruct buf; [simpl in *; lia|done].
Qed.

Lemma disabled_is_inert_witness :
  WordsDisplay_Tick ascii_wide rows_host 50000 default_config initial_store
  = (false, initial_store) ∧
  WordsDisplay_FormatSuffix ascii_wide rows_host default_config
    (Some [7; 7; 7; 7; 7]) 5 initial_store
  = (initial_store, Some (Some [0; 7; 7; 7; 7])).
Proof.
  destruct (disabled_is_inert ascii_wide rows_host 50000 default_config
              [7; 7; 7; 7; 7] 5 initial_store eq_refl
              ltac:(simpl; lia)) as (Ht & Hf & _).
  split; [exact Ht|exact Hf].
Defined.

(** C5, as the code has it.  A first [WordsDisplay_Init] that fails changes
    one global: the initialised flag, which it sets.  Every later
    [WordsDisplay_Init] then returns [TRUE] at once and loads nothing;
    [WordsDisplay_Shutdown] clears the flag again. *)
Theorem failed_Init_marks_initialized (conv : list Byte.byte → option wcs)
    (h : Host) (cfg : Config) (st : Store) :
  g_initialized st = false →
  fst (WordsDisplay_Init conv h cfg st) = false →
  snd (WordsDisplay_Init conv h cfg st) = set_initialized true st ∧
  (∀ h' cfg',
     WordsDisplay_Init conv h' cfg' (snd (WordsDisplay_Init conv h cfg st))
     = (true, snd (WordsDisplay_Init conv h cfg st))) ∧
  g_initialized (WordsDisplay_Shutdown (snd (WordsDisplay_Init conv h cfg st)))
  = false.
Proof.
  intros Hinit Hfail.
  destruct (WordsDisplay_Init_cases conv h cfg st)
    as [[? _]|[[_ Hr]|(_ & arr & count & _ & _ & Hr)]];
    [congruence| |by rewrite Hr in Hfail].
  rewrite Hr. repeat split.
Qed.

Lemma failed_Init_marks_initialized_witness :
  snd (WordsDisplay_Init ascii_wide no_host enabled_config initial_store)
  = set_initialized true initial_store.
Proof.
  apply (failed_Init_marks_initialized ascii_wide no_host enabled_config
           initial_store); reflexivity.
Defined.

(** C5, as stated, fails: after a first [WordsDisplay_Init] without the
    resource the store is marked initialised, and a second call, made when the
    resource is there, returns [TRUE] with the store still empty, where a
    first call with that resource loads 12 entries.  A first call whose
    resource has 9 lines only fails in the parser and marks the store
    initialised as well. *)
Lemma failed_Init_is_not_retried :
  fst (WordsDisplay_Init ascii_wide no_host enabled_config initial_store) = false ∧
  g_initialized
    (snd (WordsDisplay_Init ascii_wide no_host enabled_config initial_store))
  = true ∧
  WordsDisplay_Init ascii_wide rows_host enabled_config
    (snd (WordsDisplay_Init ascii_wide no_host enabled_config initial_store))
  = (true, set_initialized true initial_store) ∧
  g_words (set_initialized true initial_store) = None ∧
  g_wordCount
    (snd (WordsDisplay_Init ascii_wide rows_host enabled_config initial_store))
  = 12 ∧
  WordsDisplay_Init ascii_wide short_host enabled_config initial_store
  = (false, set_initialized true initial_store).
Proof. repeat split; by vm_compute. Qed.

(** ** Rotation *)

(** C2.  On an initialised store with an entry, with a positive interval and
    the display on, a [WordsDisplay_Tick] at or past the deadline moves the
    index one step forward (to 0 after the last entry), whatever the distance
    of [now] from the deadline, and sets the deadline to [now] plus the
    interval in milliseconds, in [DWORD] arithmetic. *)
Theorem WordsDisplay_Tick_one_step (conv : list Byte.byte → option wcs)
    (h : Host) (now : Z) (cfg : Config) (st : Store) :
  store_wf st → index_in_range st →
  WORD_DISPLAY_ENABLED cfg = true →
  g_initialized st = true →
  no_words st = false →
  0 < WORD_SWITCH_INTERVAL_SEC cfg →
  g_nextSwitchTick st <= now →
  g_currentIndex (snd (WordsDisplay_Tick conv h now cfg st))
  = (g_currentIndex st + 1) mod g_wordCount st ∧
  g_nextSwitchTick (snd (WordsDisplay_Tick conv h now cfg st))
  = to_dword (now + WORD_SWITCH_INTERVAL_SEC cfg * 1000) ∧
  (now + WORD_SWITCH_INTERVAL_SEC cfg * 1000 <= DWORD_MAX →
   g_nextSwitchTick (snd (WordsDisplay_Tick conv h now cfg st))
   = now + WORD_SWITCH_INTERVAL_SEC cfg * 1000) ∧
  g_words (snd (WordsDisplay_Tick conv h now cfg st)) = g_words st ∧
  g_wordCount (snd (WordsDisplay_Tick conv h now cfg st)) = g_wordCount st.
Proof.
  intros (Hcount & _ & Hnext & _) Hidx Hon Hinit Hw Hsec Hdue.
  specialize (Hidx Hw).
  unfold WordsDisplay_Tick.
  rewrite Hon, (lazy_init_initialized _ _ _ _ Hinit), Hw. simpl negb. cbv iota.
  destruct (Z.leb_spec (WORD_SWITCH_INTERVAL_SEC cfg) 0); [lia|].
  destruct (Z.leb_spec (g_nextSwitchTick st) now); [|lia].
  rewrite (SetCurrentIndex_spec _ _ Hw), to_dword_interval. simpl.
  rewrite to_int_id by (unfold is_int, INT_MIN, INT_MAX in *; lia).
  rewrite clamp_index_succ by done.
  repeat split. intros Hmax. apply to_dword_id.
  unfold is_dword in *. lia.
Qed.

Lemma WordsDisplay_Tick_one_step_witness :
  g_currentIndex
    (snd (WordsDisplay_Tick ascii_wide no_host 9000000 enabled_config
            (two_words 1 19000))) = 0 ∧
  g_nextSwitchTick
    (snd (WordsDisplay_Tick ascii_wide no_host 9000000 enabled_config
            (two_words 1 19000))) = 9020000.
Proof.
  destruct (WordsDisplay_Tick_one_step ascii_wide no_host 9000000 enabled_config
              (two_words 1 19000)) as (Hi & Hn & _).
  - unfold store_wf, is_int, is_dword, INT_MIN, INT_MAX, DWORD_MAX. simpl. lia.
  - intros _. simpl. lia.
  - reflexivity.
  - reflexivity.
  - reflexivity.
  - simpl. lia.
  - simpl. lia.
  - split; [exact Hi|exact Hn].
Defined.

(** C3.  [st0] is the store [WordsDisplay_Next] works on: the store itself
    when it is initialised, the outcome of the lazy initialisation otherwise.
    Without an entry the call returns [FALSE] and changes nothing.  With
    entries it moves the index one step forward, from the last entry to 0; it
    returns whether the index changed, which is always so with two entries or
    more. *)
Theorem WordsDisplay_Next_step (conv : list Byte.byte → option wcs)
    (h : Host) (now : Z) (cfg : Config) (st : Store) :
  store_wf st → index_in_range st →
  (g_initialized st = true → lazy_init conv h cfg st = st) ∧
  (no_words (lazy_init conv h cfg st) = true →
   WordsDisplay_Next conv h now cfg st = (false, lazy_init conv h cfg st)) ∧
  (no_words (lazy_init conv h cfg st) = false →
   g_currentIndex (snd (WordsDisplay_Next conv h now cfg st))
   = (g_currentIndex (lazy_init conv h cfg st) + 1)
     mod g_wordCount (lazy_init conv h cfg st) ∧
   (g_currentIndex (lazy_init conv h cfg st)
    = g_wordCount (lazy_init conv h cfg st) - 1 →
    g_currentIndex (snd (WordsDisplay_Next conv h now cfg st)) = 0) ∧
   fst (WordsDisplay_Next conv h now cfg st)
   = negb (g_currentIndex (snd (WordsDisplay_Next conv h now cfg st))
           =? g_currentIndex (lazy_init conv h cfg st)) ∧
   (2 <= g_wordCount (lazy_init conv h cfg st) →
    fst (WordsDisplay_Next conv h now cfg st) = true)).
Proof.
  intros Hwf Hidx.
  apply (lazy_init_wf conv h cfg) in Hwf as (Hcount & _).
  apply (lazy_init_index conv h cfg) in Hidx.
  split; [apply lazy_init_initialized|].
  unfold WordsDisplay_Next.
  set (st0 := lazy_init conv h cfg st) in *.
  split; [by intros ->|]. intros Hw. rewrite Hw.
  specialize (Hidx Hw).
  rewrite (SetCurrentIndex_spec _ _ Hw).
  assert (g_currentIndex
            (if 0 <? WORD_SWITCH_INTERVAL_SEC cfg
             then set_nextSwitchTick
                    (to_dword (to_dword now
                       + to_dword (to_dword (WORD_SWITCH_INTERVAL_SEC cfg) * 1000)))
                    (set_currentIndex
                       (clamp_index (to_int (g_currentIndex st0 + 1))
                          (g_wordCount st0)) st0)
             else set_currentIndex
                    (clamp_index (to_int (g_currentIndex st0 + 1))
                       (g_wordCount st0)) st0)
          = clamp_index (to_int (g_currentIndex st0 + 1)) (g_wordCount st0))
    as Hnew by (by destruct (0 <? _)).
  simpl. rewrite Hnew.
  assert (to_int (g_currentIndex st0 + 1) = g_currentIndex st0 + 1) as Hstep
    by (apply to_int_id; unfold is_int, INT_MIN, INT_MAX in *; lia).
  repeat apply conj.
  - by rewrite Hstep, clamp_index_succ.
  - intros Hlast. rewrite Hstep, clamp_index_succ by done.
    replace (g_currentIndex st0 + 1) with (g_wordCount st0) by lia.
    apply Z.mod_same. lia.
  - f_equal. apply Z.eqb_sym.
  - intros H2. apply negb_true_iff, Z.eqb_neq.
    intros Heq. by apply (clamp_index_moves (g_currentIndex st0) (g_wordCount st0)).
Qed.

Lemma WordsDisplay_Next_step_witness :
  g_currentIndex
    (snd (WordsDisplay_Next ascii_wide no_host 5000 enabled_config (two_words 1 0)))
  = 0 ∧
  fst (WordsDisplay_Next ascii_wide no_host 5000 enabled_config (two_words 1 0))
  = true ∧
  WordsDisplay_Next ascii_wide no_host 5000 enabled_config initial_store
  = (false, set_initialized true initial_store).
Proof.
  destruct (WordsDisplay_Next_step ascii_wide no_host 5000 enabled_config
              (two_words 1 0)) as (_ & _ & Hstep).
  { unfold store_wf, is_int, is_dword, INT_MIN, INT_MAX, DWORD_MAX. simpl. lia. }
  { intros _. simpl. lia. }
  destruct (Hstep eq_refl) as (_ & Hlast & _ & Htrue).
  destruct (WordsDisplay_Next_step ascii_wide no_host 5000 enabled_config
              initial_store) as (_ & Hnone & _).
  { unfold store_wf, is_int, is_dword, INT_MIN, INT_MAX, DWORD_MAX. simpl. lia. }
  { intros Hw. vm_compute in Hw. discriminate. }
  split; [exact (Hlast eq_refl)|]. split; [apply Htrue; simpl; lia|].
  exact (Hnone eq_refl).
Defined.




(** ** The output buffer *)

Lemma holds_string_cstr (buf a : wcs) : holds_string buf a → cstr buf = a.
Proof. intros (Hz & rest & ->). by apply cstr_app_zero. Qed.

Lemma holds_string_wcslen (buf a : wcs) :
  holds_string buf a → wcslen_buf buf = Some (length a).
Proof.
  intros (Hz & rest & ->).
  induction Hz as [|c a Hc _ IH]; simpl; [done|].
  destruct (Z.eqb_spec c 0); [done|]. by rewrite IH.
Qed.

Lemma same_beyond_refl (n : nat) (buf : wcs) : same_beyond n buf buf.
Proof. by split. Qed.

Lemma same_beyond_trans (n : nat) (b1 b2 b3 : wcs) :
  same_beyond n b1 b2 → same_beyond n b2 b3 → same_beyond n b1 b3.
Proof.
  intros [Hl1 Hc1] [Hl2 Hc2]. split; [congruence|].
  intros i Hi. by rewrite Hc2, Hc1.
Qed.

(** Consecutive stores inside the buffer replace exactly the cells stored. *)
Lemma store_cells_spec (buf : wcs) (i : nat) (cs : wcs) :
  (i + length cs ≤ length buf)%nat →
  store_cells buf i cs = Some (take i buf ++ cs ++ drop (i + length cs) buf).
Proof.
  revert buf i. induction cs as [|c cs IH]; intros buf i Hlen; simpl.
  - by rewrite Nat.add_0_r, take_drop.
  - simpl in Hlen. unfold store_cell.
    destruct (Nat.ltb_spec i (length buf)); [simpl|lia].
    rewrite IH by (rewrite length_insert; lia).
    f_equal.
    rewrite (take_S_r _ _ c) by (apply list_lookup_insert_eq; lia).
    rewrite take_insert_ge by lia.
    rewrite drop_insert_lt by lia.
    rewrite <- app_assoc. simpl. do 4 f_equal. lia.
Qed.

Lemma store_cell_cells (buf : wcs) (i : nat) (c : Z) :
  store_cell buf i c = store_cells buf i [c].
Proof. simpl. by destruct (store_cell buf i c). Qed.

Lemma splice_same_beyond (buf : wcs) (i n : nat) (cs : wcs) :
  (i + length cs ≤ n)%nat → (n ≤ length buf)%nat →
  same_beyond n buf (take i buf ++ cs ++ drop (i + length cs) buf).
Proof.
  intros Hn Hlen. split.
  - rewrite !length_app, length_take, length_drop. lia.
  - intros j Hj. rewrite app_assoc.
    rewrite lookup_app_r by (rewrite length_app, length_take; lia).
    rewrite lookup_drop, length_app, length_take. f_equal. lia.
Qed.

Lemma take_take_app {A} (n : nat) (l k : list A) :
  take n (take n l ++ k) = take n (l ++ k).
Proof.
  destruct (Nat.le_gt_cases n (length l)).
  - rewrite !take_app_le; [by rewrite take_take, Nat.min_id|lia|].
    rewrite length_take. lia.
  - by rewrite (take_ge l) by lia.
Qed.

(** [AppendWithLimit] on a buffer that holds a string of fewer than
    [outChars] characters: the buffer then holds the string and the appended
    characters cut at [outChars - 1]. *)
Lemma AppendWithLimit_spec (buf a : wcs) (n : nat) (s : option wcs) :
  holds_string buf a → (length a < n ≤ length buf)%nat →
  ∃ buf',
    AppendWithLimit (Some buf) n s = Some (Some buf') ∧
    holds_string buf' (take (n - 1) (a ++ chars_of s)) ∧
    same_beyond n buf buf'.
Proof.
  intros Hbuf [Ha Hn]. unfold AppendWithLimit.
  destruct s as [str|]; simpl chars_of.
  2:{ exists buf. rewrite app_nil_r, take_ge by lia.
      split; [done|]. split; [done|apply same_beyond_refl]. }
  destruct (Nat.eqb_spec n 0); [lia|].
  rewrite (holds_string_wcslen _ _ Hbuf). simpl.
  destruct (Nat.leb_spec (n - 1) (length a)).
  - exists buf. rewrite take_app_length' by lia.
    split; [done|]. split; [done|apply same_beyond_refl].
  - unfold wcsncat. rewrite (holds_string_wcslen _ _ Hbuf). simpl.
    set (chunk := take (n - 1 - length a) (cstr str)).
    assert (length chunk ≤ n - 1 - length a)%nat as Hchunk
      by (unfold chunk; rewrite length_take; lia).
    rewrite store_cells_spec by (rewrite length_app; simpl; lia).
    eexists. split; [reflexivity|]. split.
    + destruct Hbuf as (Hz & rest & ->).
      rewrite take_app_length, take_app, (take_ge a) by lia.
      fold chunk. split.
      * apply zero_free_app; [done|]. apply zero_free_take, cstr_zero_free.
      * eexists. rewrite <- !app_assoc. simpl. reflexivity.
    + apply splice_same_beyond; [rewrite length_app; simpl; lia|lia].
Qed.

Lemma holds_string_length (buf a : wcs) :
  holds_string buf a → (length a < length buf)%nat.
Proof. intros (_ & rest & ->). rewrite length_app. simpl. lia. Qed.

Lemma fits_AppendWithLimit (n : nat) (buf0 buf : wcs) (s : option wcs) :
  (n ≤ length buf0)%nat → fits n buf0 buf →
  writes_within n buf0 (AppendWithLimit (Some buf) n s).
Proof.
  intros Hn [Hsame (a & Ha & Hlen)].
  destruct (AppendWithLimit_spec buf a n s Ha) as (buf' & -> & Ha' & Hsame').
  { destruct Hsame as [-> _]. lia. }
  exists buf'. split; [done|]. split; [by eapply same_beyond_trans|].
  eexists. split; [exact Ha'|]. rewrite length_take. lia.
Qed.

Lemma writes_within_bind (n : nat) (buf0 : wcs) (m : option (option wcs))
    (k : option wcs → option (option wcs)) :
  writes_within n buf0 m →
  (∀ buf, fits n buf0 buf → writes_within n buf0 (k (Some buf))) →
  writes_within n buf0 (m ≫= k).
Proof. intros (buf & -> & Hfits) Hk. simpl. by apply Hk. Qed.

Lemma writes_within_ret (n : nat) (buf0 buf : wcs) :
  fits n buf0 buf → writes_within n buf0 (Some (Some buf)).
Proof. intros Hfits. by exists buf. Qed.

Lemma cstr_app_zeros (a : wcs) (k : nat) (r : wcs) :
  zero_free a → cstr (a ++ replicate k 0 ++ 0 :: r) = a.
Proof. intros Hz. destruct k; simpl; by apply cstr_app_zero. Qed.

(** The local array [tmp] of [AppendCnTruncated] after [wcsncpy] and the
    store of the terminator: no access leaves its 256 cells, and it holds the
    first [c] characters of the translation. *)
Lemma tmp_copy (str : wcs) (c : nat) :
  (c ≤ 240)%nat →
  ∃ t1 tmp,
    wcsncpy (replicate 256 0) str c = Some t1 ∧
    store_cell t1 c 0 = Some tmp ∧
    cstr tmp = take c (cstr str).
Proof.
  intros Hc. unfold wcsncpy.
  set (X := take c (cstr str ++ replicate c 0)).
  assert (length X = c) as HX.
  { unfold X. rewrite length_take, length_app, length_replicate. lia. }
  rewrite store_cells_spec by (rewrite HX, length_replicate; lia).
  eexists. eexists. split; [reflexivity|].
  rewrite store_cell_cells, store_cells_spec.
  2:{ rewrite !length_app, length_take, length_drop, length_replicate, HX.
      simpl. lia. }
  split; [reflexivity|].
  rewrite take_0, app_nil_l, take_app_length' by done.
  unfold X. rewrite take_app, take_replicate. simpl app.
  rewrite <- app_assoc.
  apply cstr_app_zeros, zero_free_take, cstr_zero_free.
Qed.

Lemma AppendCnTruncated_appends (cfg : Config) (buf a : wcs) (n : nat)
    (cn : option wcs) :
  holds_string buf a → (length a < n ≤ length buf)%nat →
  ∃ buf',
    AppendCnTruncated cfg (Some buf) n cn = Some (Some buf') ∧
    holds_string buf'
      (take (n - 1)
         (a ++ match cn with Some str => cn_appended cfg str | None => [] end)) ∧
    same_beyond n buf buf'.
Proof.
  intros Hbuf [Ha Hn]. unfold AppendCnTruncated, cn_appended.
  assert (∃ buf', Some (Some buf) = Some (Some buf') ∧
                  holds_string buf' (take (n - 1) (a ++ [])) ∧
                  same_beyond n buf buf') as Hnothing.
  { exists buf. rewrite app_nil_r, take_ge by lia.
    split; [done|]. split; [done|apply same_beyond_refl]. }
  destruct cn as [str|]; [|done].
  destruct (nonempty str); simpl negb; cbv iota; [|done].
  destruct (WORD_CHINESE_MAX_LEN cfg <=? 0) eqn:Hmax;
    [exact (AppendWithLimit_spec buf a n (Some str) Hbuf (conj Ha Hn))|].
  destruct (to_int (Z.of_nat (wcslen str)) <=? WORD_CHINESE_MAX_LEN cfg);
    [exact (AppendWithLimit_spec buf a n (Some str) Hbuf (conj Ha Hn))|].
  apply Z.leb_gt in Hmax.
  set (copy := if 240 <? WORD_CHINESE_MAX_LEN cfg then 240
               else WORD_CHINESE_MAX_LEN cfg).
  assert (Z.to_nat copy ≤ 240)%nat as Hcopy.
  { unfold copy. destruct (Z.ltb_spec 240 (WORD_CHINESE_MAX_LEN cfg)); lia. }
  destruct (tmp_copy str (Z.to_nat copy) Hcopy) as (t1 & tmp & -> & Ht & Htmp).
  cbn [mbind option_bind]. rewrite Ht. cbn [mbind option_bind].
  destruct (AppendWithLimit_spec buf a n (Some tmp) Hbuf (conj Ha Hn))
    as (b1 & -> & Hb1 & Hs1).
  cbn [mbind option_bind].
  destruct (AppendWithLimit_spec b1 _ n (Some [WELLIPSIS]) Hb1)
    as (b2 & -> & Hb2 & Hs2).
  { destruct Hs1 as [-> _]. rewrite length_take. lia. }
  exists b2. split; [done|]. split; [|by eapply same_beyond_trans].
  simpl chars_of in Hb2. rewrite Htmp in Hb2.
  by rewrite take_take_app, <- app_assoc in Hb2.
Qed.

Lemma fits_AppendCnTruncated (cfg : Config) (n : nat) (buf0 buf : wcs)
    (cn : option wcs) :
  (n ≤ length buf0)%nat → fits n buf0 buf →
  writes_within n buf0 (AppendCnTruncated cfg (Some buf) n cn).
Proof.
  intros Hn [Hsame (a & Ha & Hlen)].
  destruct (AppendCnTruncated_appends cfg buf a n cn Ha)
    as (buf' & -> & Ha' & Hsame').
  { destruct Hsame as [-> _]. lia. }
  exists buf'. split; [done|]. split; [by eapply same_beyond_trans|].
  eexists. split; [exact Ha'|]. rewrite length_take. lia.
Qed.

Ltac fits_step :=
  first
    [ apply writes_within_ret; assumption
    | apply fits_AppendWithLimit; assumption
    | apply fits_AppendCnTruncated; assumption
    | apply writes_within_bind; [|intros ? ?]
    | match goal with
      | |- writes_within _ _ (if ?c then _ else _) => destruct c
      end ].

Lemma fits_append_bracketed (n : nat) (buf0 buf : wcs) (p : option wcs) :
  (n ≤ length buf0)%nat → fits n buf0 buf →
  writes_within n buf0 (append_bracketed (Some buf) n p).
Proof. intros Hn Hfits. unfold append_bracketed. repeat fits_step. Qed.

Lemma fits_format_entry (cfg : Config) (n : nat) (buf0 buf : wcs) (e : WordEntry) :
  (n ≤ length buf0)%nat → fits n buf0 buf →
  writes_within n buf0 (format_entry cfg (Some buf) n e).
Proof.
  intros Hn Hfits. unfold format_entry.
  repeat first [fits_step | apply fits_append_bracketed; assumption].
Qed.

Lemma cn_appended_shown (cfg : Config) (str : wcs) :
  nonempty str = true → Z.of_nat (wcslen str) <= INT_MAX →
  cn_appended cfg str = translation_shown (WORD_CHINESE_MAX_LEN cfg) str.
Proof.
  intros Hne Hlen. unfold cn_appended, translation_shown. rewrite Hne. simpl.
  rewrite to_int_id by (unfold is_int, INT_MIN, INT_MAX in *; lia).
  destruct (_ <=? 0); [done|]. destruct (_ <=? _); [done|].
  do 3 f_equal. destruct (Z.ltb_spec 240 (WORD_CHINESE_MAX_LEN cfg)); lia.
Qed.

Lemma store_wf_preserved (conv : list Byte.byte → option wcs)
    (h : Host) (now : Z) (cfg : Config) (out : option wcs) (outChars : nat)
    (st : Store) :
  store_wf st →
  store_wf (snd (WordsDisplay_Init conv h cfg st)) ∧
  store_wf (snd (WordsDisplay_Next conv h now cfg st)) ∧
  store_wf (snd (WordsDisplay_Tick conv h now cfg st)) ∧
  store_wf (fst (WordsDisplay_FormatSuffix conv h cfg out outChars st)) ∧
  store_wf (WordsDisplay_Shutdown st).
Proof.
  intros Hwf.
  assert (∀ st0 idx, store_wf st0 → no_words st0 = false →
            store_wf (snd (SetCurrentIndex idx st0))) as Hset.
  { intros st0 idx (Hc & Hi & Ht & Hws) Hw.
    rewrite (SetCurrentIndex_spec _ _ Hw).
    apply no_words_false in Hw as [_ Hpos].
    pose proof (clamp_index_range idx _ Hpos).
    repeat apply conj; simpl; try done;
      unfold is_int, is_dword, INT_MIN, INT_MAX in *; lia. }
  assert (∀ st0 t, store_wf st0 → store_wf (set_nextSwitchTick (to_dword t) st0))
    as Hnext.
  { intros st0 t (Hc & Hi & Ht & Hws).
    pose proof (to_dword_is_dword t).
    repeat apply conj; simpl; try done; unfold is_int, is_dword in *; lia. }
  pose proof (lazy_init_wf conv h cfg st Hwf) as Hwf0.
  split; [|split; [|split; [|split]]].
  - destruct (WordsDisplay_Init_cases conv h cfg st)
      as [[_ ->]|[[_ ->]|(_ & arr & count & ? & ? & ->)]];
      [exact Hwf|exact Hwf|by apply loaded_store_wf].
  - unfold WordsDisplay_Next.
    destruct (no_words (lazy_init conv h cfg st)) eqn:Hw; [done|].
    specialize (Hset _ (to_int (g_currentIndex (lazy_init conv h cfg st) + 1))
                  Hwf0 Hw).
    destruct (SetCurrentIndex _ _) as [changed st1]. simpl in *.
    destruct (0 <? _); [by apply Hnext|done].
  - unfold WordsDisplay_Tick.
    destruct (WORD_DISPLAY_ENABLED cfg); [simpl|done].
    destruct (no_words (lazy_init conv h cfg st)) eqn:Hw; [done|].
    destruct (_ <=? 0); [done|]. destruct (_ <=? now); [|done].
    specialize (Hset _ (to_int (g_currentIndex (lazy_init conv h cfg st) + 1))
                  Hwf0 Hw).
    destruct (SetCurrentIndex _ _) as [changed st1]. by apply Hnext.
  - by destruct (WordsDisplay_FormatSuffix_store conv h cfg out outChars st)
      as [->| ->].
  - destruct Hwf as (Hc & Hi & Ht & Hws).
    unfold WordsDisplay_Shutdown, FreeWords.
    destruct (g_words st) eqn:Hg; repeat apply conj; simpl;
      try rewrite Hg; try done;
      unfold is_int, is_dword, INT_MIN, INT_MAX in *; lia.
Qed.

Lemma initial_store_wf : store_wf initial_store.
Proof.
  unfold store_wf, is_int, is_dword, INT_MIN, INT_MAX, DWORD_MAX. simpl. lia.
Qed.

Lemma FormatSuffix_writes_within (conv : list Byte.byte → option wcs)
    (h : Host) (cfg : Config) (buf : wcs) (outChars : nat) (st : Store) :
  store_wf st → (1 ≤ outChars ≤ length buf)%nat →
  writes_within outChars buf
    (snd (WordsDisplay_FormatSuffix conv h cfg (Some buf) outChars st)).
Proof.
  intros Hwf [Hpos Hlen]. unfold WordsDisplay_FormatSuffix, store_cell.
  destruct (Nat.eqb_spec outChars 0); [lia|].
  destruct (Nat.ltb_spec 0 (length buf)); [|lia].
  assert (fits outChars buf (<[0%nat := 0]> buf)) as Hfits.
  { split; [split|].
    - apply length_insert.
    - intros i Hi. apply list_lookup_insert_ne. lia.
    - exists []. split; [|simpl; lia]. split; [constructor|].
      destruct buf as [|c rest]; [simpl in *; lia|]. by exists rest. }
  destruct (WORD_DISPLAY_ENABLED cfg); simpl negb; cbv iota;
    [|by apply writes_within_ret].
  destruct (_ || _) eqn:Hsel; [by apply writes_within_ret|].
  apply orb_false_elim in Hsel as [Hsel Hhi].
  apply orb_false_elim in Hsel as [Hw Hlo].
  apply Z.ltb_ge in Hlo. apply Z.leb_gt in Hhi.
  pose proof (lazy_init_wf conv h cfg st Hwf) as (_ & _ & _ & Hws).
  apply no_words_false in Hw as [[ws Hg] _]. rewrite Hg in Hws.
  simpl snd. rewrite Hg.
  destruct (lookup_lt_is_Some_2 ws
              (Z.to_nat (g_currentIndex (lazy_init conv h cfg st)))) as [e He];
    [lia|].
  cbn [mbind option_bind]. rewrite He. cbn [mbind option_bind].
  by apply fits_format_entry.
Qed.

(** C1.  On a buffer of at least [outChars >= 1] cells,
    [WordsDisplay_FormatSuffix] makes no access outside the buffer or the
    array of entries; afterwards the buffer holds a terminated string of at
    most [outChars - 1] characters, and every cell from index [outChars] on is
    as it was.  This holds for every store, configuration, host and entry,
    whatever the lengths of the entry's fields. *)
Theorem WordsDisplay_FormatSuffix_bounded (conv : list Byte.byte → option wcs)
    (h : Host) (cfg : Config) (buf : wcs) (outChars : nat) (st : Store) :
  store_wf st → (1 ≤ outChars ≤ length buf)%nat →
  ∃ buf' text,
    snd (WordsDisplay_FormatSuffix conv h cfg (Some buf) outChars st)
    = Some (Some buf') ∧
    holds_string buf' text ∧ (length text ≤ outChars - 1)%nat ∧
    length buf' = length buf ∧
    ∀ i, (outChars ≤ i)%nat → buf' !! i = buf !! i.
Proof.
  intros Hwf Hn.
  destruct (FormatSuffix_writes_within conv h cfg buf outChars st Hwf Hn)
    as (buf' & Hr & [Hlen Hcells] & text & Htext & Hshort).
  exists buf', text.
  split; [done|]. split; [done|]. split; [lia|]. by split.
Qed.

Lemma WordsDisplay_FormatSuffix_bounded_witness :
  ∃ buf' text,
    snd (WordsDisplay_FormatSuffix ascii_wide no_host enabled_config
           (Some [7; 7; 7; 7; 7; 9; 9]) 5 (two_words 0 0))
    = Some (Some buf') ∧
    holds_string buf' text ∧ (length text ≤ 5 - 1)%nat ∧
    length buf' = 7%nat ∧
    ∀ i, (5 ≤ i)%nat → buf' !! i = [7; 7; 7; 7; 7; 9; 9] !! i.
Proof.
  apply (WordsDisplay_FormatSuffix_bounded ascii_wide no_host enabled_config
           [7; 7; 7; 7; 7; 9; 9] 5 (two_words 0 0)).
  - unfold store_wf, is_int, is_dword, INT_MIN, INT_MAX, DWORD_MAX. simpl. lia.
  - simpl. lia.
Defined.

(** The end-to-end example of the specification: the entry [abandon] with its
    UK transcription and its translation cut to 2 characters. *)
Example FormatSuffix_abandon :
  snd (WordsDisplay_FormatSuffix ascii_wide no_host
         {| WORD_DISPLAY_ENABLED := true; WORD_SWITCH_INTERVAL_SEC := 20;
            WORD_SHOW_PHONETIC := true; WORD_PHONETIC_MODE := 0;
            WORD_SHOW_CHINESE := true; WORD_CHINESE_MAX_LEN := 2 |}
         (Some (replicate 30 7)) 30 (two_words 0 0))
  = Some (Some (L "  abandon [" ++ [601; 712; 98; 230; 110; 100; 601; 110]
                ++ L "] " ++ [WMIDDOT; WSPACE; 25918; 24323; WELLIPSIS; 0]
                ++ replicate 3 7)).
Proof. reflexivity. Qed.

(** C7.  For a non-empty translation, [AppendCnTruncated] appends what the
    truncation rule shows, cut like every append at the capacity of the
    buffer: the translation in full when the maximum is not positive, or when
    the translation is not longer than the maximum; otherwise its first
    [min max 240] characters and one ellipsis. *)
Theorem AppendCnTruncated_rule (cfg : Config) (buf a : wcs) (n : nat) (str : wcs) :
  holds_string buf a → (length a < n ≤ length buf)%nat →
  cstr str ≠ [] → Z.of_nat (wcslen str) <= INT_MAX →
  (∃ buf',
     AppendCnTruncated cfg (Some buf) n (Some str) = Some (Some buf') ∧
     holds_string buf'
       (take (n - 1) (a ++ translation_shown (WORD_CHINESE_MAX_LEN cfg) str)) ∧
     same_beyond n buf buf' ∧
     ((length a + length (translation_shown (WORD_CHINESE_MAX_LEN cfg) str) < n)%nat →
      holds_string buf' (a ++ translation_shown (WORD_CHINESE_MAX_LEN cfg) str))) ∧
  (WORD_CHINESE_MAX_LEN cfg <= 0 →
   translation_shown (WORD_CHINESE_MAX_LEN cfg) str = cstr str) ∧
  (Z.of_nat (wcslen str) <= WORD_CHINESE_MAX_LEN cfg →
   translation_shown (WORD_CHINESE_MAX_LEN cfg) str = cstr str) ∧
  (0 < WORD_CHINESE_MAX_LEN cfg < Z.of_nat (wcslen str) →
   translation_shown (WORD_CHINESE_MAX_LEN cfg) str
   = take (Z.to_nat (Z.min (WORD_CHINESE_MAX_LEN cfg) 240)) (cstr str)
     ++ [WELLIPSIS]).
Proof.
  intros Hbuf Hn Hne Hlen. apply nonempty_cstr in Hne.
  split.
  - destruct (AppendCnTruncated_appends cfg buf a n (Some str) Hbuf Hn)
      as (buf' & Hr & Hheld & Hsame).
    rewrite (cn_appended_shown cfg str Hne Hlen) in Hheld.
    exists buf'. split; [done|]. split; [done|]. split; [done|].
    intros Hroom. rewrite take_ge in Hheld; [done|].
    rewrite length_app. lia.
  - unfold translation_shown. repeat apply conj.
    + intros Hmax. by destruct (Z.leb_spec (WORD_CHINESE_MAX_LEN cfg) 0); [|lia].
    + intros Hmax. destruct (_ <=? 0); [done|].
      by destruct (Z.leb_spec (Z.of_nat (wcslen str)) (WORD_CHINESE_MAX_LEN cfg));
        [|lia].
    + intros Hmax.
      destruct (Z.leb_spec (WORD_CHINESE_MAX_LEN cfg) 0); [lia|].
      by destruct (Z.leb_spec (Z.of_nat (wcslen str)) (WORD_CHINESE_MAX_LEN cfg));
        [lia|].
Qed.

Lemma AppendCnTruncated_rule_witness :
  ∃ buf',
    AppendCnTruncated
      {| WORD_DISPLAY_ENABLED := true; WORD_SWITCH_INTERVAL_SEC := 20;
         WORD_SHOW_PHONETIC := true; WORD_PHONETIC_MODE := 0;
         WORD_SHOW_CHINESE := true; WORD_CHINESE_MAX_LEN := 2 |}
      (Some (L "ab" ++ 0 :: replicate 9 7)) 12
      (Some [25918; 24323; 65307; 25243; 24323])
    = Some (Some buf') ∧
    holds_string buf' (L "ab" ++ [25918; 24323; WELLIPSIS]).
Proof.
  destruct (AppendCnTruncated_rule
              {| WORD_DISPLAY_ENABLED := true; WORD_SWITCH_INTERVAL_SEC := 20;
                 WORD_SHOW_PHONETIC := true; WORD_PHONETIC_MODE := 0;
                 WORD_SHOW_CHINESE := true; WORD_CHINESE_MAX_LEN := 2 |}
              (L "ab" ++ 0 :: replicate 9 7) (L "ab") 12
              [25918; 24323; 65307; 25243; 24323])
    as [(buf' & Hr & Hheld & _) _].
  - split; [by repeat constructor|]. by exists (replicate 9 7).
  - simpl. lia.
  - discriminate.
  - by vm_compute.
  - exists buf'. split; [exact Hr|exact Hheld].
Defined.

(** * Further properties *)

(** ** Lines and fields *)

Lemma split_fields_nonempty (fi : nat) (p : wcs) : split_fields fi p ≠ [].
Proof.
  destruct p as [|c p]; simpl; [done|].
  destruct (_ && _); [done|]. by destruct (split_fields fi p).
Qed.

Lemma join_tabs_cons (f g : wcs) (fs : list wcs) :
  join_tabs (f :: g :: fs) = f ++ WTAB :: join_tabs (g :: fs).
Proof. reflexivity. Qed.

Lemma split_fields_join (fi : nat) (p : wcs) : join_tabs (split_fields fi p) = p.
Proof.
  revert fi. induction p as [|c p IH]; intros fi; [done|].
  simpl split_fields.
  destruct ((c =? WTAB) && (fi <? 4)%nat) eqn:Htab.
  - apply andb_prop in Htab as [Hc _]. apply Z.eqb_eq in Hc. subst c.
    specialize (IH (S fi)).
    pose proof (split_fields_nonempty (S fi) p).
    destruct (split_fields (S fi) p) as [|g fs]; [done|].
    by rewrite join_tabs_cons, IH.
  - specialize (IH fi).
    pose proof (split_fields_nonempty fi p).
    destruct (split_fields fi p) as [|g fs]; [done|].
    change (join_tabs ((c :: g) :: fs)) with (c :: join_tabs (g :: fs)).
    by rewrite IH.
Qed.

Lemma split_fields_length (fi : nat) (p : wcs) :
  (fi ≤ 4)%nat → (1 ≤ length (split_fields fi p) ≤ 5 - fi)%nat.
Proof.
  revert fi. induction p as [|c p IH]; intros fi Hfi; simpl; [lia|].
  destruct (Nat.ltb_spec fi 4).
  - destruct (c =? WTAB); simpl.
    + specialize (IH (S fi)). lia.
    + specialize (IH fi Hfi).
      destruct (split_fields fi p); simpl in *; lia.
  - rewrite andb_false_r. specialize (IH fi Hfi).
    destruct (split_fields fi p); simpl in *; lia.
Qed.

Lemma split_fields_tab_free (fi : nat) (p : wcs) :
  (fi ≤ 4)%nat →
  Forall (λ f, WTAB ∉ f) (take (4 - fi) (split_fields fi p)).
Proof.
  revert fi. induction p as [|c p IH]; intros fi Hfi.
  - simpl. destruct (4 - fi)%nat; simpl; [constructor|].
    constructor; [apply not_elem_of_nil|]. rewrite take_nil. constructor.
  - simpl split_fields. destruct (Nat.ltb_spec fi 4) as [Hlt|Hge].
    + replace (4 - fi)%nat with (S (4 - S fi)) by lia.
      destruct (Z.eqb_spec c WTAB) as [->|Hc]; simpl andb; cbv iota.
      * simpl. constructor; [apply not_elem_of_nil|]. apply (IH (S fi)). lia.
      * specialize (IH fi Hfi).
        replace (4 - fi)%nat with (S (4 - S fi)) in IH by lia.
        pose proof (split_fields_nonempty fi p).
        destruct (split_fields fi p) as [|f fs]; [done|].
        simpl in *. apply Forall_cons in IH as [Hf Hfs].
        constructor; [|done]. intros [?|?]%elem_of_cons; [congruence|done].
    + replace (4 - fi)%nat with 0%nat by lia. constructor.
Qed.

(** X1.  The field loop loses nothing: the fields of a line, joined by tabs,
    are the line; a line has between 1 and 4 fields; none of its first three
    fields contains a tab (only the fourth may, holding the rest of the
    line). *)
Theorem split_fields_round_trip (line : wcs) :
  join_tabs (split_fields 1 line) = line ∧
  (1 ≤ length (split_fields 1 line) ≤ 4)%nat ∧
  Forall (λ f, WTAB ∉ f) (take 3 (split_fields 1 line)).
Proof.
  split; [apply split_fields_join|]. split.
  - apply (split_fields_length 1 line). lia.
  - apply (split_fields_tab_free 1 line). lia.
Qed.

Lemma wcstok_lines_line (cur l rest : wcs) :
  Forall (λ c, c ≠ WNL) l →
  wcstok_lines cur (l ++ WNL :: rest)
  = match cur ++ l with
    | [] => wcstok_lines [] rest
    | t => t :: wcstok_lines [] rest
    end.
Proof.
  intros Hl. revert cur. induction Hl as [|c l Hc _ IH]; intros cur; simpl.
  - rewrite app_nil_r. by destruct cur.
  - destruct (Z.eqb_spec c WNL); [done|].
    rewrite IH, <- app_assoc. done.
Qed.

(** X2.  Splitting undoes joining: a buffer written as lines, each ended by
    its newline, is split by the tokenizer into exactly those lines, in
    order, the empty ones left out. *)
Theorem wcstok_lines_unlines (ls : list wcs) :
  Forall is_line ls →
  wcstok_lines [] (cstr (unlines ls)) = filter (λ l, l ≠ []) ls.
Proof.
  intros Hls. rewrite (cstr_id _ (unlines_zero_free ls Hls)).
  induction Hls as [|l ls Hl _ IH]; [done|].
  rewrite unlines_cons, <- app_assoc. simpl app at 2.
  rewrite wcstok_lines_line, IH, app_nil_l.
  2:{ eapply Forall_impl; [exact Hl|]. by intros c [_ ?]. }
  destruct l; [by rewrite filter_cons_False by auto|].
  by rewrite filter_cons_True.
Qed.

Lemma wcstok_lines_unlines_witness :
  wcstok_lines [] (cstr (unlines [L "cat"; []; L "dog"])) = [L "cat"; L "dog"].
Proof.
  rewrite (wcstok_lines_unlines [L "cat"; []; L "dog"]); [reflexivity|].
  repeat constructor; discriminate.
Defined.

Lemma wcstok_lines_tokens (cur s : wcs) :
  Forall (λ c, c ≠ WNL) cur →
  Forall (λ t, t ≠ [] ∧ Forall (λ c, c ≠ WNL) t) (wcstok_lines cur s) ∧
  concat (wcstok_lines cur s) = cur ++ filter (λ c, c ≠ WNL) s.
Proof.
  revert cur. induction s as [|c s IH]; intros cur Hcur; simpl wcstok_lines.
  - rewrite filter_nil, app_nil_r. destruct cur; simpl.
    + by split; [constructor|].
    + rewrite app_nil_r. split; [|done].
      constructor; [by split|constructor].
  - destruct (Z.eqb_spec c WNL) as [->|Hc].
    + rewrite filter_cons_False by auto.
      destruct (IH [] ltac:(constructor)) as [Htok Hcat].
      destruct cur as [|c' cur]; [done|]. split.
      * constructor; [by split|done].
      * simpl concat. rewrite Hcat. done.
    + rewrite filter_cons_True by done.
      destruct (IH (cur ++ [c])) as [Htok Hcat].
      { apply Forall_app. split; [done|]. by repeat constructor. }
      split; [done|]. by rewrite Hcat, <- app_assoc.
Qed.

(** X3.  Whatever the buffer, the tokens the line loop sees are never empty
    and never contain a newline, and together they are the buffer without its
    newlines: no character is lost or invented by the splitting. *)
Theorem wcstok_lines_partition (s : wcs) :
  Forall (λ t, t ≠ [] ∧ Forall (λ c, c ≠ WNL) t) (wcstok_lines [] s) ∧
  concat (wcstok_lines [] s) = filter (λ c, c ≠ WNL) s.
Proof. apply (wcstok_lines_tokens [] s). constructor. Qed.

(** ** Trimming and rows *)

Lemma TrimWideInPlace_fixed (f : wcs) :
  zero_free f → trimmed f → TrimWideInPlace f = f.
Proof.
  intros Hz [Hhead Hlast]. unfold TrimWideInPlace. rewrite (cstr_id _ Hz).
  assert (trim_trailing_len f (length f) = length f) as ->.
  { destruct (length f) as [|n] eqn:Hlen; [done|]. simpl.
    destruct (lookup_lt_is_Some_2 f n) as [x Hx]; [lia|].
    rewrite nth_lookup, Hx. simpl.
    rewrite (Hlast x); [done|]. by rewrite last_lookup, Hlen. }
  rewrite firstn_all. destruct f as [|c f]; [done|]. simpl.
  by rewrite (Hhead c).
Qed.

(** X4.  Trimming is idempotent: a trimmed field is left as it is. *)
Theorem TrimWideInPlace_idempotent (s : wcs) :
  TrimWideInPlace (TrimWideInPlace s) = TrimWideInPlace s.
Proof.
  apply TrimWideInPlace_fixed;
    [apply TrimWideInPlace_zero_free|apply TrimWideInPlace_trimmed].
Qed.

Lemma ParseLine_name (line : wcs) :
  ParseLine line
  = if nonempty (TrimWideInPlace (raw_field line 0))
    then ParseLine line else None.
Proof.
  unfold ParseLine at 1 2. rewrite !raw_field_trim.
  pose proof (split_fields_length 1 line ltac:(lia)) as [Hlen _].
  rewrite length_fmap.
  destruct (Nat.leb_spec 1 (length (split_fields 1 line))); [|lia].
  simpl. by destruct (nonempty _).
Qed.

Lemma ParseLine_complete (line : wcs) (e : WordEntry) :
  ParseLine line = Some e → entry_complete e.
Proof.
  intros He. pose proof (ParseLine_fields line e He) as (Hn & Hu & Hs & Ht).
  rewrite ParseLine_name in He.
  destruct (nonempty (TrimWideInPlace (raw_field line 0))) eqn:Hne; [|done].
  apply nonempty_cstr in Hne.
  rewrite (cstr_id _ (TrimWideInPlace_zero_free _)) in Hne.
  destruct e as [n u s t]. simpl in *. subst.
  eexists _, _, _, _. split; [reflexivity|].
  split; [done|]. repeat split; apply TrimWideInPlace_zero_free.
Qed.

Lemma ParseLine_None_iff (line : wcs) :
  ParseLine line = None ↔ TrimWideInPlace (raw_field line 0) = [].
Proof.
  rewrite ParseLine_name.
  destruct (nonempty (TrimWideInPlace (raw_field line 0))) eqn:Hne.
  - apply nonempty_cstr in Hne as Hne'.
    rewrite (cstr_id _ (TrimWideInPlace_zero_free _)) in Hne'.
    split; [|done]. intros Hnone.
    unfold ParseLine in Hnone. rewrite !raw_field_trim, Hne in Hnone.
    pose proof (split_fields_length 1 line ltac:(lia)) as [Hlen _].
    rewrite length_fmap in Hnone.
    by destruct (Nat.leb_spec 1 (length (split_fields 1 line))); [|lia].
  - split; [|done]. intros _.
    by apply zero_free_nonempty; [apply TrimWideInPlace_zero_free|].
Qed.

(** X5.  A line yields an entry exactly when its first field is not empty
    once trimmed; a line whose name is blank is skipped, whatever its other
    fields hold.  An entry that is stored has its four strings allocated and a
    name of at least one character. *)
Theorem ParseLine_skips_blank_name (line : wcs) :
  (ParseLine line = None ↔ TrimWideInPlace (raw_field line 0) = []) ∧
  (∀ e, ParseLine line = Some e → entry_complete e).
Proof. split; [apply ParseLine_None_iff|apply ParseLine_complete]. Qed.

Lemma split_fields_no_tab (fi : nat) (line : wcs) :
  Forall (λ c, c ≠ WTAB) line → split_fields fi line = [line].
Proof.
  induction 1 as [|c line Hc _ IH]; simpl; [done|].
  destruct (Z.eqb_spec c WTAB); [done|]. simpl. by rewrite IH.
Qed.

(** X6.  A line without a tab is a name and nothing else: provided the line
    is not blank, its entry has the trimmed line as name and the empty string
    as both transcriptions and as translation. *)
Theorem ParseLine_name_only (line : wcs) :
  Forall (λ c, c ≠ WTAB) line → TrimWideInPlace line ≠ [] →
  ParseLine line
  = Some {| name := Some (TrimWideInPlace line); uk := Some [];
            us := Some []; trans := Some [] |}.
Proof.
  intros Htab Hne. unfold ParseLine. rewrite (split_fields_no_tab 1 line Htab).
  simpl.
  assert (nonempty (TrimWideInPlace line) = true) as ->.
  { apply nonempty_cstr.
    by rewrite (cstr_id _ (TrimWideInPlace_zero_free _)). }
  unfold DupWide. by rewrite (cstr_id _ (TrimWideInPlace_zero_free _)).
Qed.

Lemma ParseLine_name_only_witness :
  ParseLine (L "  abandon " ++ [WCR])
  = Some {| name := Some (L "abandon"); uk := Some [];
            us := Some []; trans := Some [] |}.
Proof.
  apply (ParseLine_name_only (L "  abandon " ++ [WCR])).
  - repeat constructor; discriminate.
  - discriminate.
Defined.

(** ** The parser as a whole *)

Lemma omap_ParseLine_complete (toks : list wcs) :
  Forall entry_complete (omap ParseLine toks).
Proof.
  apply Forall_forall. intros e [line [_ He]]%list_elem_of_omap.
  by eapply ParseLine_complete.
Qed.

(** X7.  What [ParseTsvToWords] leaves behind.  When it fails, for whichever
    reason, no global is changed.  When it succeeds the array holds at least
    one entry, every entry has its four strings and a non-empty name, the
    count is positive and within the array, and the index is 0; the deadline
    and the initialised flag are untouched. *)
Theorem ParseTsvToWords_outcome (conv : list Byte.byte → option wcs)
    (utf8 : option (list Byte.byte)) (st : Store) :
  match ParseTsvToWords conv utf8 st with
  | (Failed _, st') => st' = st
  | (Parsed, st') =>
      ∃ arr,
        g_words st' = Some arr ∧ arr ≠ [] ∧ Forall entry_complete arr ∧
        0 < g_wordCount st' <= Z.of_nat (length arr) ∧
        g_currentIndex st' = 0 ∧
        g_nextSwitchTick st' = g_nextSwitchTick st ∧
        g_initialized st' = g_initialized st
  end.
Proof.
  unfold ParseTsvToWords. destruct utf8 as [buf|]; [|done].
  destruct (conv (utf8_cstr buf)) as [wide|]; [|done].
  destruct (ParseWide wide) as [e|[arr count]] eqn:Hparse; [done|].
  destruct (ParseWide_ok _ _ _ Hparse) as [Hcount Harr].
  exists arr. simpl. split; [done|].
  split; [intros ->; simpl in *; lia|]. split; [|split; [lia|done]].
  revert Hparse. unfold ParseWide. destruct (_ <? 10); [done|].
  change 0 with (to_int 0) at 1. rewrite parse_lines_spec.
  destruct (_ <=? 0); [done|]. intros [= <- _].
  apply omap_ParseLine_complete.
Qed.

Lemma omap_ParseLine_nil (toks : list wcs) :
  omap ParseLine toks = []
  ↔ Forall (λ line, TrimWideInPlace (raw_field line 0) = []) toks.
Proof.
  induction toks as [|line toks IH].
  - split; [constructor|done].
  - change (omap ParseLine (line :: toks))
      with (match ParseLine line with
            | Some y => y :: omap ParseLine toks
            | None => omap ParseLine toks
            end).
    destruct (ParseLine line) as [e|] eqn:He.
    + split; [done|]. intros [Hnil _]%Forall_cons.
      apply ParseLine_None_iff in Hnil. congruence.
    + apply ParseLine_None_iff in He. rewrite IH.
      split; [by constructor|by intros [_ ?]%Forall_cons].
Qed.

(** X8.  A buffer with its 10 lines or more fails through the [count <= 0]
    exit exactly when every one of its lines has a blank name; the store is
    then unchanged. *)
Theorem ParseTsvToWords_NoUsableEntries
    (conv : list Byte.byte → option wcs) (buf : list Byte.byte) (wide : wcs)
    (st : Store) :
  conv (utf8_cstr buf) = Some wide →
  Z.of_nat (wcslen wide) <= INT_MAX →
  10 <= line_count wide →
  (ParseTsvToWords conv (Some buf) st = (Failed NoUsableEntries, st)
   ↔ Forall (λ line, TrimWideInPlace (raw_field line 0) = [])
            (wcstok_lines [] (cstr wide))).
Proof.
  intros Hconv Hlen H10. rewrite <- omap_ParseLine_nil.
  unfold ParseTsvToWords, ParseWide.
  rewrite Hconv, (ParseWide_lines _ Hlen), (ParseWide_rows _ Hlen).
  destruct (Z.ltb_spec (line_count wide) 10); [lia|].
  by destruct (omap ParseLine (wcstok_lines [] (cstr wide))).
Qed.

Lemma ParseTsvToWords_NoUsableEntries_witness :
  ParseTsvToWords ascii_wide (Some (rows_of 10 "  ")) initial_store
  = (Failed NoUsableEntries, initial_store).
Proof.
  apply (ParseTsvToWords_NoUsableEntries ascii_wide (rows_of 10 "  ") _
           initial_store eq_refl); [by vm_compute|by vm_compute|].
  vm_compute. repeat constructor.
Defined.

(** ** Initialisation and shutdown *)


(** X9.  [WordsDisplay_Init] is safe to call again: whatever the first call
    did, the store is marked initialised afterwards, and any further call
    returns [TRUE] and changes nothing, whatever the host and the settings
    then are. *)
Theorem WordsDisplay_Init_idempotent (conv : list Byte.byte → option wcs)
    (h h' : Host) (cfg cfg' : Config) (st : Store) :
  g_initialized (snd (WordsDisplay_Init conv h cfg st)) = true ∧
  WordsDisplay_Init conv h' cfg' (snd (WordsDisplay_Init conv h cfg st))
  = (true, snd (WordsDisplay_Init conv h cfg st)).
Proof.
  assert (g_initialized (snd (WordsDisplay_Init conv h cfg st)) = true) as Hinit.
  { destruct (WordsDisplay_Init_cases conv h cfg st)
      as [[? ->]|[[_ ->]|(_ & arr & count & _ & _ & ->)]]; done. }
  split; [done|]. unfold WordsDisplay_Init at 1. by rewrite Hinit.
Qed.



Lemma lazy_init_empty_consistent (conv : list Byte.byte → option wcs)
    (h : Host) (cfg : Config) (st : Store) :
  empty_consistent st → empty_consistent (lazy_init conv h cfg st).
Proof.
  intros He.
  destruct (lazy_init_cases conv h cfg st)
    as [->|[->|(arr & count & ? & ? & ->)]]; [exact He|exact He|done].
Qed.

Lemma SetCurrentIndex_words (idx : Z) (st : Store) :
  g_words (snd (SetCurrentIndex idx st)) = g_words st ∧
  g_wordCount (snd (SetCurrentIndex idx st)) = g_wordCount st ∧
  g_nextSwitchTick (snd (SetCurrentIndex idx st)) = g_nextSwitchTick st ∧
  g_initialized (snd (SetCurrentIndex idx st)) = g_initialized st.
Proof.
  unfold SetCurrentIndex. destruct (no_words st); [done|].
  by destruct (negb _).
Qed.

Lemma empty_consistent_preserved (conv : list Byte.byte → option wcs)
    (h : Host) (now : Z) (cfg : Config) (out : option wcs) (outChars : nat)
    (st : Store) :
  empty_consistent st →
  empty_consistent (snd (WordsDisplay_Init conv h cfg st)) ∧
  empty_consistent (snd (WordsDisplay_Next conv h now cfg st)) ∧
  empty_consistent (snd (WordsDisplay_Tick conv h now cfg st)) ∧
  empty_consistent (fst (WordsDisplay_FormatSuffix conv h cfg out outChars st)) ∧
  empty_consistent (WordsDisplay_Shutdown st).
Proof.
  intros He.
  pose proof (lazy_init_empty_consistent conv h cfg st He) as He0.
  assert (∀ st0 idx t (b : bool), no_words st0 = false →
            empty_consistent
              (if b then set_nextSwitchTick t (snd (SetCurrentIndex idx st0))
               else snd (SetCurrentIndex idx st0))) as Hset.
  { intros st0 idx t b Hw Hnone.
    apply no_words_false in Hw as [[ws Hws] _].
    pose proof (SetCurrentIndex_words idx st0) as [Hg _].
    destruct b; simpl in Hnone; congruence. }
  split; [|split; [|split; [|split]]].
  - destruct (WordsDisplay_Init_cases conv h cfg st)
      as [[_ ->]|[[_ ->]|(_ & arr & count & ? & ? & ->)]];
      [exact He|exact He|done].
  - unfold WordsDisplay_Next.
    destruct (no_words (lazy_init conv h cfg st)) eqn:Hw; [done|].
    specialize (Hset _ (to_int (g_currentIndex (lazy_init conv h cfg st) + 1))
                  (to_dword (to_dword now
                     + to_dword (to_dword (WORD_SWITCH_INTERVAL_SEC cfg) * 1000)))
                  (0 <? WORD_SWITCH_INTERVAL_SEC cfg) Hw).
    by destruct (SetCurrentIndex _ _) as [changed st1].
  - unfold WordsDisplay_Tick.
    destruct (WORD_DISPLAY_ENABLED cfg); [simpl|done].
    destruct (no_words (lazy_init conv h cfg st)) eqn:Hw; [done|].
    destruct (_ <=? 0); [done|]. destruct (_ <=? now); [|done].
    specialize (Hset _ (to_int (g_currentIndex (lazy_init conv h cfg st) + 1))
                  (to_dword (now
                     + to_dword (to_dword (WORD_SWITCH_INTERVAL_SEC cfg) * 1000)))
                  true Hw).
    by destruct (SetCurrentIndex _ _) as [changed st1].
  - by destruct (WordsDisplay_FormatSuffix_store conv h cfg out outChars st)
      as [->| ->].
  - unfold WordsDisplay_Shutdown, FreeWords, empty_consistent in *.
    destruct (g_words st) eqn:Hg; simpl; [done|]. by rewrite Hg.
Qed.

(** X11.  Two facts hold of the initial store and are kept by every
    operation: the globals stay within their C types with the count never
    above the number of entries the array holds (so that, the index being
    below the count, every read of the array is inside it), and a store
    without array has count 0 and index -1. *)
Theorem store_invariants_preserved (conv : list Byte.byte → option wcs)
    (h : Host) (now : Z) (cfg : Config) (out : option wcs) (outChars : nat)
    (st : Store) :
  store_wf st ∧ empty_consistent st →
  (store_wf (snd (WordsDisplay_Init conv h cfg st)) ∧
   empty_consistent (snd (WordsDisplay_Init conv h cfg st))) ∧
  (store_wf (snd (WordsDisplay_Next conv h now cfg st)) ∧
   empty_consistent (snd (WordsDisplay_Next conv h now cfg st))) ∧
  (store_wf (snd (WordsDisplay_Tick conv h now cfg st)) ∧
   empty_consistent (snd (WordsDisplay_Tick conv h now cfg st))) ∧
  (store_wf (fst (WordsDisplay_FormatSuffix conv h cfg out outChars st)) ∧
   empty_consistent (fst (WordsDisplay_FormatSuffix conv h cfg out outChars st))) ∧
  (store_wf (WordsDisplay_Shutdown st) ∧
   empty_consistent (WordsDisplay_Shutdown st)) ∧
  (store_wf initial_store ∧ empty_consistent initial_store).
Proof.
  intros [Hwf He].
  destruct (store_wf_preserved conv h now cfg out outChars st Hwf)
    as (W1 & W2 & W3 & W4 & W5).
  destruct (empty_consistent_preserved conv h now cfg out outChars st He)
    as (E1 & E2 & E3 & E4 & E5).
  pose proof initial_store_wf.
  by repeat (split; [by split|]).
Qed.

Lemma store_invariants_preserved_witness :
  store_wf (snd (WordsDisplay_Init ascii_wide rows_host enabled_config
                   initial_store)) ∧
  empty_consistent (WordsDisplay_Shutdown (two_words 1 0)).
Proof.
  split.
  - apply (store_invariants_preserved ascii_wide rows_host 0 enabled_config
             None 0 initial_store).
    split; [|done].
    unfold store_wf, is_int, is_dword, INT_MIN, INT_MAX, DWORD_MAX. simpl. lia.
  - apply (store_invariants_preserved ascii_wide rows_host 0 enabled_config
             None 0 (two_words 1 0)).
    split; [|done].
    unfold store_wf, is_int, is_dword, INT_MIN, INT_MAX, DWORD_MAX. simpl. lia.
Defined.

(** X12.  [WordsDisplay_Shutdown] brings a store back to its initial state,
    the stale deadline apart: no array, count 0, index -1, not initialised.
    It may be called on a store that was never initialised, and twice. *)
Theorem WordsDisplay_Shutdown_resets (st : Store) :
  empty_consistent st →
  WordsDisplay_Shutdown st
  = {| g_words := None; g_wordCount := 0; g_currentIndex := -1;
       g_nextSwitchTick := g_nextSwitchTick st; g_initialized := false |} ∧
  WordsDisplay_Shutdown (WordsDisplay_Shutdown st) = WordsDisplay_Shutdown st ∧
  WordsDisplay_Shutdown initial_store = initial_store.
Proof.
  intros He.
  assert (WordsDisplay_Shutdown st
          = {| g_words := None; g_wordCount := 0; g_currentIndex := -1;
               g_nextSwitchTick := g_nextSwitchTick st;
               g_initialized := false |}) as Hs.
  { unfold WordsDisplay_Shutdown, FreeWords, set_initialized.
    destruct (g_words st) eqn:Hg; simpl; [done|].
    destruct (He Hg) as [-> ->]. by rewrite Hg. }
  split; [done|]. split; [|done]. by rewrite Hs.
Qed.

Lemma WordsDisplay_Shutdown_resets_witness :
  WordsDisplay_Shutdown (two_words 1 19000)
  = {| g_words := None; g_wordCount := 0; g_currentIndex := -1;
       g_nextSwitchTick := 19000; g_initialized := false |}.
Proof. apply (WordsDisplay_Shutdown_resets (two_words 1 19000)). done. Defined.

(** X13.  After [WordsDisplay_Shutdown] the next [WordsDisplay_Init] loads
    afresh: it returns what a first call on the initial store returns, and
    leaves the same array, count, index and flag. *)
Theorem WordsDisplay_Init_after_Shutdown (conv : list Byte.byte → option wcs)
    (h : Host) (cfg : Config) (st : Store) :
  empty_consistent st →
  fst (WordsDisplay_Init conv h cfg (WordsDisplay_Shutdown st))
  = fst (WordsDisplay_Init conv h cfg initial_store) ∧
  g_words (snd (WordsDisplay_Init conv h cfg (WordsDisplay_Shutdown st)))
  = g_words (snd (WordsDisplay_Init conv h cfg initial_store)) ∧
  g_wordCount (snd (WordsDisplay_Init conv h cfg (WordsDisplay_Shutdown st)))
  = g_wordCount (snd (WordsDisplay_Init conv h cfg initial_store)) ∧
  g_currentIndex (snd (WordsDisplay_Init conv h cfg (WordsDisplay_Shutdown st)))
  = g_currentIndex (snd (WordsDisplay_Init conv h cfg initial_store)) ∧
  g_initialized (snd (WordsDisplay_Init conv h cfg (WordsDisplay_Shutdown st)))
  = true.
Proof.
  intros He.
  assert (WordsDisplay_Shutdown st
          = set_nextSwitchTick (g_nextSwitchTick st) initial_store) as ->.
  { unfold WordsDisplay_Shutdown, FreeWords, set_initialized.
    destruct (g_words st) eqn:Hg; simpl; [done|].
    destruct (He Hg) as [Hc Hi]. unfold set_nextSwitchTick, initial_store.
    simpl. by rewrite Hg, Hc, Hi. }
  unfold WordsDisplay_Init. simpl g_initialized. cbv iota.
  destruct (LoadResourceToUtf8Buffer h) as [buf|]; [|done].
  unfold ParseTsvToWords.
  destruct (conv (utf8_cstr buf)) as [wide|]; [|done].
  destruct (ParseWide wide) as [e|[arr count]]; [done|].
  simpl. by destruct (0 <? count).
Qed.

Lemma WordsDisplay_Init_after_Shutdown_witness :
  g_wordCount
    (snd (WordsDisplay_Init ascii_wide rows_host enabled_config
            (WordsDisplay_Shutdown (two_words 1 19000)))) = 12.
Proof.
  destruct (WordsDisplay_Init_after_Shutdown ascii_wide rows_host enabled_config
              (two_words 1 19000)) as (_ & _ & Hc & _); [done|].
  rewrite Hc. reflexivity.
Defined.

(** ** Rotation, further *)

(** X14.  [SetCurrentIndex] on a store with entries always leaves the index
    inside the array: a requested index in range is taken as it is, any other
    (negative, or the count and beyond) becomes 0.  It returns whether the
    index changed and touches no other global; on a store without entries it
    returns [FALSE] and changes nothing. *)
Theorem SetCurrentIndex_clamps (idx : Z) (st : Store) :
  (no_words st = true → SetCurrentIndex idx st = (false, st)) ∧
  (no_words st = false →
   0 <= g_currentIndex (snd (SetCurrentIndex idx st)) < g_wordCount st ∧
   (0 <= idx < g_wordCount st →
    g_currentIndex (snd (SetCurrentIndex idx st)) = idx) ∧
   (idx < 0 ∨ g_wordCount st <= idx →
    g_currentIndex (snd (SetCurrentIndex idx st)) = 0) ∧
   fst (SetCurrentIndex idx st)
   = negb (g_currentIndex (snd (SetCurrentIndex idx st)) =? g_currentIndex st) ∧
   snd (SetCurrentIndex idx st)
   = set_currentIndex (g_currentIndex (snd (SetCurrentIndex idx st))) st).
Proof.
  split.
  - intros Hw. unfold SetCurrentIndex. by rewrite Hw.
  - intros Hw. rewrite (SetCurrentIndex_spec _ _ Hw). simpl.
    apply no_words_false in Hw as [_ Hpos].
    split; [by apply clamp_index_range|].
    unfold clamp_index.
    split; [|split; [|split; [|done]]].
    + intros Hin.
      by destruct (Z.leb_spec 0 idx), (Z.ltb_spec idx (g_wordCount st)); try lia.
    + intros Hout.
      destruct (Z.leb_spec 0 idx), (Z.ltb_spec idx (g_wordCount st));
        simpl; lia.
    + f_equal. apply Z.eqb_sym.
Qed.

Lemma WordsDisplay_Next_loaded (conv : list Byte.byte → option wcs)
    (h : Host) (now : Z) (cfg : Config) (st : Store) :
  g_initialized st = true → no_words st = false →
  WordsDisplay_Next conv h now cfg st
  = (negb (g_currentIndex st
           =? clamp_index (to_int (g_currentIndex st + 1)) (g_wordCount st)),
     (if 0 <? WORD_SWITCH_INTERVAL_SEC cfg
      then set_nextSwitchTick
             (to_dword (to_dword now + WORD_SWITCH_INTERVAL_SEC cfg * 1000))
      else id)
       (set_currentIndex
          (clamp_index (to_int (g_currentIndex st + 1)) (g_wordCount st)) st)).
Proof.
  intros Hinit Hw. unfold WordsDisplay_Next.
  rewrite (lazy_init_initialized _ _ _ _ Hinit), Hw,
    (SetCurrentIndex_spec _ _ Hw), to_dword_interval.
  by destruct (0 <? _).
Qed.

Lemma WordsDisplay_Next_keeps (conv : list Byte.byte → option wcs)
    (h : Host) (now : Z) (cfg : Config) (st : Store) :
  store_wf st → index_in_range st →
  g_initialized st = true → no_words st = false →
  store_wf (snd (WordsDisplay_Next conv h now cfg st)) ∧
  index_in_range (snd (WordsDisplay_Next conv h now cfg st)) ∧
  g_initialized (snd (WordsDisplay_Next conv h now cfg st)) = true ∧
  no_words (snd (WordsDisplay_Next conv h now cfg st)) = false ∧
  g_wordCount (snd (WordsDisplay_Next conv h now cfg st)) = g_wordCount st ∧
  g_currentIndex (snd (WordsDisplay_Next conv h now cfg st))
  = (g_currentIndex st + 1) mod g_wordCount st.
Proof.
  intros Hwf Hidx Hinit Hw.
  pose proof (store_wf_preserved conv h now cfg None 0 st Hwf) as (_ & Hwf' & _).
  pose proof (WordsDisplay_Next_index conv h now cfg st Hidx) as Hidx'.
  split; [done|]. split; [done|].
  rewrite (WordsDisplay_Next_loaded _ _ _ _ _ Hinit Hw). simpl.
  destruct Hwf as (Hcount & _). specialize (Hidx Hw).
  rewrite to_int_id by (unfold is_int, INT_MIN, INT_MAX in *; lia).
  rewrite clamp_index_succ by done.
  by destruct (0 <? _).
Qed.

(** X15.  Forced switches go round the list: from an initialised store with
    [count] entries, as many calls of [WordsDisplay_Next] as there are
    readings in [nows] move the index forward by that number modulo [count];
    after exactly [count] calls every entry has been shown once and the index
    is back where it started. *)
Theorem Next_all_cycles (conv : list Byte.byte → option wcs)
    (h : Host) (cfg : Config) (nows : list Z) (st : Store) :
  store_wf st → index_in_range st →
  g_initialized st = true → no_words st = false →
  g_currentIndex (Next_all conv h cfg nows st)
  = (g_currentIndex st + Z.of_nat (length nows)) mod g_wordCount st ∧
  (Z.of_nat (length nows) = g_wordCount st →
   g_currentIndex (Next_all conv h cfg nows st) = g_currentIndex st).
Proof.
  intros Hwf Hidx Hinit Hw.
  assert (g_currentIndex (Next_all conv h cfg nows st)
          = (g_currentIndex st + Z.of_nat (length nows)) mod g_wordCount st)
    as Hall.
  { revert st Hwf Hidx Hinit Hw.
    induction nows as [|now nows IH]; intros st Hwf Hidx Hinit Hw.
    - simpl. rewrite Z.add_0_r, Z.mod_small; [done|]. by apply Hidx.
    - destruct (WordsDisplay_Next_keeps conv h now cfg st Hwf Hidx Hinit Hw)
        as (Hwf' & Hidx' & Hinit' & Hw' & Hcount & Hstep).
      simpl Next_all. rewrite (IH _ Hwf' Hidx' Hinit' Hw'), Hcount, Hstep.
      rewrite Zplus_mod_idemp_l. f_equal. simpl length. lia. }
  split; [done|]. intros Hfull. rewrite Hall, Hfull.
  specialize (Hidx Hw).
  rewrite <- (Z.mul_1_l (g_wordCount st)) at 1.
  rewrite Z.mod_add by lia. apply Z.mod_small. lia.
Qed.

Lemma Next_all_cycles_witness :
  g_currentIndex
    (Next_all ascii_wide no_host enabled_config [100; 200; 300] (two_words 1 0))
  = 0 ∧
  g_currentIndex
    (Next_all ascii_wide no_host enabled_config [100; 200] (two_words 1 0))
  = 1.
Proof.
  assert (store_wf (two_words 1 0)) as Hwf.
  { unfold store_wf, is_int, is_dword, INT_MIN, INT_MAX, DWORD_MAX. simpl. lia. }
  assert (index_in_range (two_words 1 0)) as Hidx by (intros _; simpl; lia).
  split.
  - by rewrite (proj1 (Next_all_cycles ascii_wide no_host enabled_config
                         [100; 200; 300] (two_words 1 0) Hwf Hidx eq_refl eq_refl)).
  - by apply (Next_all_cycles ascii_wide no_host enabled_config
                [100; 200] (two_words 1 0) Hwf Hidx eq_refl eq_refl).
Defined.

(** X16.  A forced switch postpones the automatic one by a full interval:
    after [WordsDisplay_Next] at tick [t0], with a positive interval that
    does not carry the deadline past the counter's range, every
    [WordsDisplay_Tick] at a tick from [t0] up to the deadline returns [FALSE]
    and changes nothing. *)
Theorem Tick_after_Next_waits (conv : list Byte.byte → option wcs)
    (h : Host) (t0 now : Z) (cfg : Config) (st : Store) :
  g_initialized st = true → no_words st = false →
  0 < WORD_SWITCH_INTERVAL_SEC cfg →
  is_dword t0 → t0 + WORD_SWITCH_INTERVAL_SEC cfg * 1000 <= DWORD_MAX →
  t0 <= now < t0 + WORD_SWITCH_INTERVAL_SEC cfg * 1000 →
  WordsDisplay_Tick conv h now cfg (snd (WordsDisplay_Next conv h t0 cfg st))
  = (false, snd (WordsDisplay_Next conv h t0 cfg st)).
Proof.
  intros Hinit Hw Hsec Ht0 Hmax Hnow.
  rewrite (WordsDisplay_Next_loaded _ _ _ _ _ Hinit Hw).
  destruct (Z.ltb_spec 0 (WORD_SWITCH_INTERVAL_SEC cfg)); [|lia].
  simpl snd. unfold WordsDisplay_Tick.
  destruct (WORD_DISPLAY_ENABLED cfg); [simpl negb; cbv iota|done].
  rewrite lazy_init_initialized by done.
  assert (no_words
            (set_nextSwitchTick
               (to_dword (to_dword t0 + WORD_SWITCH_INTERVAL_SEC cfg * 1000))
               (set_currentIndex
                  (clamp_index (to_int (g_currentIndex st + 1)) (g_wordCount st))
                  st)) = false) as -> by exact Hw.
  destruct (Z.leb_spec (WORD_SWITCH_INTERVAL_SEC cfg) 0); [lia|].
  simpl g_nextSwitchTick.
  rewrite (to_dword_id t0) by done.
  rewrite to_dword_id by (unfold is_dword in *; lia).
  by destruct (Z.leb_spec (t0 + WORD_SWITCH_INTERVAL_SEC cfg * 1000) now); [lia|].
Qed.

Lemma Tick_after_Next_waits_witness :
  fst (WordsDisplay_Tick ascii_wide no_host 24999 enabled_config
         (snd (WordsDisplay_Next ascii_wide no_host 5000 enabled_config
                 (two_words 0 6000))))
  = false.
Proof.
  rewrite (Tick_after_Next_waits ascii_wide no_host 5000 24999 enabled_config
             (two_words 0 6000)); try reflexivity;
    unfold is_dword, DWORD_MAX; simpl; lia.
Defined.

(** X17.  Once the store is initialised its entries are never touched again:
    [WordsDisplay_Next] and [WordsDisplay_Tick] keep the array, the count and
    the flag, and [WordsDisplay_FormatSuffix] keeps every global. *)
Theorem initialized_store_frame (conv : list Byte.byte → option wcs)
    (h : Host) (now : Z) (cfg : Config) (out : option wcs) (outChars : nat)
    (st : Store) :
  g_initialized st = true →
  (g_words (snd (WordsDisplay_Next conv h now cfg st)) = g_words st ∧
   g_wordCount (snd (WordsDisplay_Next conv h now cfg st)) = g_wordCount st ∧
   g_initialized (snd (WordsDisplay_Next conv h now cfg st)) = true) ∧
  (g_words (snd (WordsDisplay_Tick conv h now cfg st)) = g_words st ∧
   g_wordCount (snd (WordsDisplay_Tick conv h now cfg st)) = g_wordCount st ∧
   g_initialized (snd (WordsDisplay_Tick conv h now cfg st)) = true) ∧
  fst (WordsDisplay_FormatSuffix conv h cfg out outChars st) = st.
Proof.
  intros Hinit. split; [|split].
  - unfold WordsDisplay_Next. rewrite lazy_init_initialized by done.
    destruct (no_words st); [done|].
    pose proof (SetCurrentIndex_words (to_int (g_currentIndex st + 1)) st)
      as (Hw & Hc & _ & Hi).
    destruct (SetCurrentIndex _ _) as [changed st1]. simpl in *.
    destruct (0 <? _); simpl; by rewrite Hw, Hc, Hi.
  - unfold WordsDisplay_Tick. rewrite lazy_init_initialized by done.
    destruct (WORD_DISPLAY_ENABLED cfg); [simpl|done].
    destruct (no_words st); [done|].
    destruct (_ <=? 0); [done|]. destruct (_ <=? now); [|done].
    pose proof (SetCurrentIndex_words (to_int (g_currentIndex st + 1)) st)
      as (Hw & Hc & _ & Hi).
    destruct (SetCurrentIndex _ _) as [changed st1]. simpl in *.
    by rewrite Hw, Hc, Hi.
  - destruct (WordsDisplay_FormatSuffix_store conv h cfg out outChars st)
      as [->| ->]; [done|by apply lazy_init_initialized].
Qed.

Lemma initialized_store_frame_witness :
  g_words (snd (WordsDisplay_Tick ascii_wide no_host 50000 enabled_config
                  (two_words 1 19000)))
  = Some [entry_abandon; entry_cat].
Proof.
  destruct (initialized_store_frame ascii_wide no_host 50000 enabled_config
              None 0 (two_words 1 19000) eq_refl) as (_ & (Hw & _) & _).
  exact Hw.
Defined.

(** X18.  On an initialised store [WordsDisplay_Tick] does nothing and
    returns [FALSE] as long as the deadline lies ahead, and always when the
    interval is zero or negative: then no tick count, however large, switches
    the word. *)
Theorem WordsDisplay_Tick_idle (conv : list Byte.byte → option wcs)
    (h : Host) (now : Z) (cfg : Config) (st : Store) :
  g_initialized st = true →
  WORD_SWITCH_INTERVAL_SEC cfg <= 0 ∨ now < g_nextSwitchTick st →
  WordsDisplay_Tick conv h now cfg st = (false, st).
Proof.
  intros Hinit Hidle. unfold WordsDisplay_Tick.
  rewrite lazy_init_initialized by done.
  destruct (WORD_DISPLAY_ENABLED cfg); [simpl|done].
  destruct (no_words st); [done|].
  destruct (Z.leb_spec (WORD_SWITCH_INTERVAL_SEC cfg) 0); [done|].
  by destruct (Z.leb_spec (g_nextSwitchTick st) now); [lia|].
Qed.

Lemma WordsDisplay_Tick_idle_witness :
  WordsDisplay_Tick ascii_wide no_host 4294967295
    {| WORD_DISPLAY_ENABLED := true; WORD_SWITCH_INTERVAL_SEC := 0;
       WORD_SHOW_PHONETIC := true; WORD_PHONETIC_MODE := 0;
       WORD_SHOW_CHINESE := true; WORD_CHINESE_MAX_LEN := 10 |}
    (two_words 1 19000)
  = (false, two_words 1 19000).
Proof.
  apply WordsDisplay_Tick_idle; [reflexivity|]. left. simpl. lia.
Defined.

(** X19.  Without entries every query degrades quietly: when the store the
    call works on (after the lazy initialisation, which may have failed) has
    no entry, [WordsDisplay_Next] and [WordsDisplay_Tick] return [FALSE] and
    [WordsDisplay_FormatSuffix] writes the empty string, each leaving the
    store as the lazy initialisation left it. *)
Theorem queries_degrade_without_entries (conv : list Byte.byte → option wcs)
    (h : Host) (now : Z) (cfg : Config) (buf : wcs) (outChars : nat) (st : Store) :
  no_words (lazy_init conv h cfg st) = true →
  WORD_DISPLAY_ENABLED cfg = true →
  (0 < outChars ≤ length buf)%nat →
  WordsDisplay_Next conv h now cfg st = (false, lazy_init conv h cfg st) ∧
  WordsDisplay_Tick conv h now cfg st = (false, lazy_init conv h cfg st) ∧
  WordsDisplay_FormatSuffix conv h cfg (Some buf) outChars st
  = (lazy_init conv h cfg st, Some (Some (<[0%nat := 0]> buf))).
Proof.
  intros Hw Hon [Hpos Hlen].
  unfold WordsDisplay_Next, WordsDisplay_Tick, WordsDisplay_FormatSuffix,
    store_cell.
  rewrite Hw, Hon. simpl negb. cbv iota.
  destruct (Nat.eqb_spec outChars 0); [lia|].
  by destruct (Nat.ltb_spec 0 (length buf)); [|lia].
Qed.

Lemma queries_degrade_without_entries_witness :
  WordsDisplay_Next ascii_wide blank_host 100 enabled_config initial_store
  = (false, set_initialized true initial_store) ∧
  WordsDisplay_FormatSuffix ascii_wide blank_host enabled_config
    (Some [7; 7; 7]) 3 initial_store
  = (set_initialized true initial_store, Some (Some [0; 7; 7])).
Proof.
  destruct (queries_degrade_without_entries ascii_wide blank_host 100
              enabled_config [7; 7; 7] 3 initial_store)
    as (Hn & _ & Hf); [by vm_compute|reflexivity|simpl; lia|].
  split; [exact Hn|exact Hf].
Defined.

(** ** The text of the suffix *)

Lemma appended_AppendWithLimit (n : nat) (buf0 buf text : wcs) (s : option wcs) :
  (0 < n ≤ length buf0)%nat →
  holds_string buf (take (n - 1) text) → same_beyond n buf0 buf →
  appended n buf0 (text ++ chars_of s) (AppendWithLimit (Some buf) n s).
Proof.
  intros Hn Hbuf Hsame.
  destruct (AppendWithLimit_spec buf _ n s Hbuf) as (buf' & -> & Hbuf' & Hsame').
  { destruct Hsame as [-> _]. rewrite length_take. lia. }
  exists buf'. split; [done|]. rewrite take_take_app in Hbuf'.
  split; [done|by eapply same_beyond_trans].
Qed.

Lemma appended_AppendCnTruncated (cfg : Config) (n : nat) (buf0 buf text : wcs)
    (cn : option wcs) :
  (0 < n ≤ length buf0)%nat →
  holds_string buf (take (n - 1) text) → same_beyond n buf0 buf →
  appended n buf0
    (text ++ match cn with Some str => cn_appended cfg str | None => [] end)
    (AppendCnTruncated cfg (Some buf) n cn).
Proof.
  intros Hn Hbuf Hsame.
  destruct (AppendCnTruncated_appends cfg buf _ n cn Hbuf)
    as (buf' & -> & Hbuf' & Hsame').
  { destruct Hsame as [-> _]. rewrite length_take. lia. }
  exists buf'. split; [done|]. rewrite take_take_app in Hbuf'.
  split; [done|by eapply same_beyond_trans].
Qed.

Lemma appended_bind (n : nat) (buf0 text text' : wcs)
    (m : option (option wcs)) (k : option wcs → option (option wcs)) :
  appended n buf0 text m →
  (∀ buf, holds_string buf (take (n - 1) text) → same_beyond n buf0 buf →
          appended n buf0 text' (k (Some buf))) →
  appended n buf0 text' (m ≫= k).
Proof. intros (buf & -> & Hbuf & Hsame) Hk. simpl. by apply Hk. Qed.

Lemma appended_ret (n : nat) (buf0 buf text : wcs) :
  holds_string buf (take (n - 1) text) → same_beyond n buf0 buf →
  appended n buf0 text (Some (Some buf)).
Proof. intros Hbuf Hsame. by exists buf. Qed.

Ltac appended_step :=
  first
    [ eapply appended_ret; eassumption
    | eapply appended_AppendWithLimit; eassumption
    | eapply appended_AppendCnTruncated; eassumption
    | eapply appended_bind; [|intros ? ? ?] ].

(** The text the formatter composes, with the translation as
    [AppendCnTruncated] appends it. *)
Lemma format_entry_text (cfg : Config) (n : nat) (buf0 buf text : wcs)
    (e : WordEntry) :
  (0 < n ≤ length buf0)%nat →
  holds_string buf (take (n - 1) text) → same_beyond n buf0 buf →
  appended n buf0
    (text ++ [WSPACE; WSPACE] ++ chars_of (name e) ++ phonetic_text cfg e
     ++ (if WORD_SHOW_CHINESE cfg && present (trans e)
         then [WSPACE; WMIDDOT; WSPACE]
              ++ cn_appended cfg (default [] (trans e))
         else []))
    (format_entry cfg (Some buf) n e).
Proof.
  intros Hn Hbuf Hsame.
  cut (∃ T, appended n buf0 T (format_entry cfg (Some buf) n e) ∧
            T = text ++ [WSPACE; WSPACE] ++ chars_of (name e)
                ++ phonetic_text cfg e
                ++ (if WORD_SHOW_CHINESE cfg && present (trans e)
                    then [WSPACE; WMIDDOT; WSPACE]
                         ++ cn_appended cfg (default [] (trans e))
                    else [])).
  { by intros (T & HT & ->). }
  unfold format_entry, phonetic_text, bracketed, append_bracketed.
  destruct (WORD_SHOW_PHONETIC cfg), (WORD_PHONETIC_MODE cfg =? 2),
    (WORD_PHONETIC_MODE cfg =? 1), (present (uk e)), (present (us e)),
    (WORD_SHOW_CHINESE cfg), (present (trans e)) eqn:Htrans;
    (eexists; split; [repeat appended_step|]);
    destruct (name e), (uk e), (us e), (trans e);
    repeat first [progress simpl | rewrite <- app_assoc | rewrite app_nil_r];
    reflexivity.
Qed.

Lemma translation_text_code (cfg : Config) (e : WordEntry) :
  translation_fits_int e →
  (if WORD_SHOW_CHINESE cfg && present (trans e)
   then [WSPACE; WMIDDOT; WSPACE] ++ cn_appended cfg (default [] (trans e))
   else [])
  = translation_text cfg e.
Proof.
  intros Hfits. unfold translation_text.
  destruct (WORD_SHOW_CHINESE cfg && present (trans e)) eqn:Hshow; [|done].
  apply andb_prop in Hshow as [_ Hpresent].
  destruct (trans e) as [t|] eqn:Ht; [|done]. simpl in *.
  unfold translation_fits_int in Hfits. rewrite Ht in Hfits. simpl in Hfits.
  by rewrite (cn_appended_shown cfg t Hpresent Hfits).
Qed.

Lemma FormatSuffix_appended (conv : list Byte.byte → option wcs)
    (h : Host) (cfg : Config) (buf : wcs) (n : nat) (st : Store)
    (ws : list WordEntry) (e : WordEntry) :
  WORD_DISPLAY_ENABLED cfg = true → g_initialized st = true →
  g_words st = Some ws →
  0 <= g_currentIndex st < g_wordCount st →
  ws !! Z.to_nat (g_currentIndex st) = Some e →
  translation_fits_int e →
  (1 ≤ n ≤ length buf)%nat →
  fst (WordsDisplay_FormatSuffix conv h cfg (Some buf) n st) = st ∧
  appended n buf (suffix_text cfg e)
    (snd (WordsDisplay_FormatSuffix conv h cfg (Some buf) n st)).
Proof.
  intros Hon Hinit Hws Hidx He Hfits [Hpos Hlen].
  unfold WordsDisplay_FormatSuffix, store_cell.
  destruct (Nat.eqb_spec n 0); [lia|].
  destruct (Nat.ltb_spec 0 (length buf)); [|lia].
  rewrite Hon, (lazy_init_initialized _ _ _ _ Hinit). simpl negb. cbv iota.
  assert (no_words st = false) as Hw.
  { apply no_words_false. split; [by exists ws|lia]. }
  rewrite Hw. simpl orb.
  destruct (Z.ltb_spec (g_currentIndex st) 0); [lia|].
  destruct (Z.leb_spec (g_wordCount st) (g_currentIndex st)); [lia|].
  simpl. split; [done|]. rewrite Hws. cbn [mbind option_bind].
  rewrite He. cbn [mbind option_bind].
  unfold suffix_text. rewrite <- (translation_text_code cfg e Hfits).
  apply (format_entry_text cfg n buf (<[0%nat := 0]> buf) [] e).
  - lia.
  - rewrite take_nil. split; [constructor|].
    destruct buf as [|c rest]; [simpl in *; lia|]. by exists rest.
  - split; [apply length_insert|].
    intros i Hi. apply list_lookup_insert_ne. lia.
Qed.

(** X20.  What the formatter writes.  On an initialised store with the
    display on, [WordsDisplay_FormatSuffix] leaves in the buffer the suffix
    text of the current entry cut at [outChars - 1] characters, and the whole
    text when it fits: a field that fits only in part is cut, never dropped,
    and nothing follows a cut.  The store is unchanged and so are the cells
    from [outChars] on. *)
Theorem WordsDisplay_FormatSuffix_text (conv : list Byte.byte → option wcs)
    (h : Host) (cfg : Config) (buf : wcs) (n : nat) (st : Store)
    (ws : list WordEntry) (e : WordEntry) :
  WORD_DISPLAY_ENABLED cfg = true → g_initialized st = true →
  g_words st = Some ws →
  0 <= g_currentIndex st < g_wordCount st →
  ws !! Z.to_nat (g_currentIndex st) = Some e →
  translation_fits_int e →
  (1 ≤ n ≤ length buf)%nat →
  ∃ buf',
    WordsDisplay_FormatSuffix conv h cfg (Some buf) n st
    = (st, Some (Some buf')) ∧
    holds_string buf' (take (n - 1) (suffix_text cfg e)) ∧
    same_beyond n buf buf' ∧
    ((length (suffix_text cfg e) < n)%nat →
     holds_string buf' (suffix_text cfg e)).
Proof.
  intros Hon Hinit Hws Hidx He Hfits Hn.
  destruct (FormatSuffix_appended conv h cfg buf n st ws e
              Hon Hinit Hws Hidx He Hfits Hn)
    as (Hst & buf' & Hr & Hheld & Hsame).
  exists buf'. split; [|split; [done|split; [done|]]].
  - rewrite <- Hst at 2. rewrite <- Hr. apply surjective_pairing.
  - intros Hroom. by rewrite take_ge in Hheld by lia.
Qed.

Lemma WordsDisplay_FormatSuffix_text_witness :
  ∃ buf',
    WordsDisplay_FormatSuffix ascii_wide no_host enabled_config
      (Some (replicate 12 7)) 12 (two_words 1 0)
    = (two_words 1 0, Some (Some buf')) ∧
    holds_string buf' (L "  cat [kat]").
Proof.
  destruct (WordsDisplay_FormatSuffix_text ascii_wide no_host enabled_config
              (replicate 12 7) 12 (two_words 1 0) [entry_abandon; entry_cat]
              entry_cat)
    as (buf' & Hr & Hheld & _); try reflexivity.
  - simpl. lia.
  - by vm_compute.
  - simpl. lia.
  - exists buf'. split; [exact Hr|exact Hheld].
Defined.

(** X21.  A smaller buffer gets a prefix of what a larger one gets: for
    capacities [n <= m] the string written with capacity [n] is the string
    written with capacity [m] cut at [n - 1] characters. *)
Theorem WordsDisplay_FormatSuffix_prefix (conv : list Byte.byte → option wcs)
    (h : Host) (cfg : Config) (buf : wcs) (n m : nat) (st : Store)
    (ws : list WordEntry) (e : WordEntry) :
  WORD_DISPLAY_ENABLED cfg = true → g_initialized st = true →
  g_words st = Some ws →
  0 <= g_currentIndex st < g_wordCount st →
  ws !! Z.to_nat (g_currentIndex st) = Some e →
  translation_fits_int e →
  (1 ≤ n ≤ m)%nat → (m ≤ length buf)%nat →
  ∃ bn bm,
    snd (WordsDisplay_FormatSuffix conv h cfg (Some buf) n st) = Some (Some bn) ∧
    snd (WordsDisplay_FormatSuffix conv h cfg (Some buf) m st) = Some (Some bm) ∧
    cstr bn = take (n - 1) (cstr bm).
Proof.
  intros Hon Hinit Hws Hidx He Hfits Hnm Hm.
  destruct (FormatSuffix_appended conv h cfg buf n st ws e
              Hon Hinit Hws Hidx He Hfits ltac:(lia))
    as (_ & bn & Hrn & Hn & _).
  destruct (FormatSuffix_appended conv h cfg buf m st ws e
              Hon Hinit Hws Hidx He Hfits ltac:(lia))
    as (_ & bm & Hrm & Hm' & _).
  exists bn, bm. split; [done|]. split; [done|].
  rewrite (holds_string_cstr _ _ Hn), (holds_string_cstr _ _ Hm'), take_take.
  f_equal. lia.
Qed.

Lemma WordsDisplay_FormatSuffix_prefix_witness :
  ∃ bn bm,
    snd (WordsDisplay_FormatSuffix ascii_wide no_host enabled_config
           (Some (replicate 20 7)) 5 (two_words 0 0)) = Some (Some bn) ∧
    snd (WordsDisplay_FormatSuffix ascii_wide no_host enabled_config
           (Some (replicate 20 7)) 20 (two_words 0 0)) = Some (Some bm) ∧
    cstr bn = take (5 - 1) (cstr bm).
Proof.
  apply (WordsDisplay_FormatSuffix_prefix ascii_wide no_host enabled_config
           (replicate 20 7) 5 20 (two_words 0 0) [entry_abandon; entry_cat]
           entry_abandon);
    [reflexivity|reflexivity|reflexivity|simpl; lia|reflexivity|by vm_compute
    |lia|simpl; lia].
Defined.

(** X22.  [AppendWithLimit] at its edges.  On a buffer of [outChars >= 1]
    characters that holds a string: when the string already fills the buffer
    (or is longer than it) nothing is written; otherwise the buffer holds the
    string followed by as much of the appended text as fits before the
    terminator.  A [NULL] text, like a [NULL] buffer or a capacity of 0,
    changes nothing. *)
Theorem AppendWithLimit_edges (buf a : wcs) (n : nat) (s : option wcs) :
  holds_string buf a → (0 < n ≤ length buf)%nat →
  ((n - 1 ≤ length a)%nat → AppendWithLimit (Some buf) n s = Some (Some buf)) ∧
  ((length a < n)%nat →
   ∃ buf',
     AppendWithLimit (Some buf) n s = Some (Some buf') ∧
     holds_string buf' (take (n - 1) (a ++ chars_of s)) ∧
     same_beyond n buf buf') ∧
  AppendWithLimit (Some buf) n None = Some (Some buf) ∧
  AppendWithLimit (Some buf) 0 s = Some (Some buf) ∧
  AppendWithLimit None n s = Some None.
Proof.
  intros Hbuf [Hpos Hlen]. split; [|split; [|split; [|split]]].
  - intros Hfull. unfold AppendWithLimit. destruct s as [str|]; [|done].
    destruct (Nat.eqb_spec n 0); [lia|].
    rewrite (holds_string_wcslen _ _ Hbuf). simpl.
    by destruct (Nat.leb_spec (n - 1) (length a)); [|lia].
  - intros Hroom. by apply AppendWithLimit_spec.
  - done.
  - unfold AppendWithLimit. by destruct s.
  - done.
Qed.

Lemma AppendWithLimit_edges_witness :
  AppendWithLimit (Some (L "abcd" ++ [0; 7])) 5 (Some (L "xyz"))
  = Some (Some (L "abcd" ++ [0; 7])) ∧
  ∃ buf',
    AppendWithLimit (Some (L "ab" ++ [0; 7; 7; 7])) 5 (Some (L "xyz"))
    = Some (Some buf') ∧
    holds_string buf' (L "abxy").
Proof.
  split.
  - destruct (AppendWithLimit_edges (L "abcd" ++ [0; 7]) (L "abcd") 5
                (Some (L "xyz"))) as (Hfull & _).
    + split; [by repeat constructor|]. by exists [7].
    + simpl. lia.
    + apply Hfull. simpl. lia.
  - destruct (AppendWithLimit_edges (L "ab" ++ [0; 7; 7; 7]) (L "ab") 5
                (Some (L "xyz"))) as (_ & Happ & _).
    + split; [by repeat constructor|]. by exists [7; 7; 7].
    + simpl. lia.
    + destruct Happ as (buf' & Hr & Hheld & _); [simpl; lia|].
      exists buf'. split; [exact Hr|exact Hheld].
Defined.
